(** * LoafLogic: the scraper normalizers and the price-analysis pipeline

    A shallow embedding of
      - [src/scrapers/*_scraper.py]: [_normalize_weight], [_clean_price];
      - [src/data_manager.py]: the [price_per_100g] column;
      - [src/data_analyser.py]: [load_and_preprocess],
        [fuzzy_match_products], [identify_best_deals],
        [create_comparison_table];
      - [run_analysis.py]: the order in which the stages are chained.
    and, for the further properties at the end of the file,
      - [src/scrapers/*_scraper.py]: [_extract_brand_from_name],
        [_extract_product_data], [_is_bread_product] and the loop of
        [scrape_products];
      - [src/data_manager.py]: [save_combined_data] and
        [convert_to_dataframe] on the lists of [run_scrapers.py];
      - [src/data_analyser.py]: [_standardize_brand],
        [_create_product_key] and two entries of [generate_insights];
      - [dashboard/app.py]: [get_min_price].

    Conventions of the embedding.
      - A Python [str] is a [string] holding its UTF-8 bytes; the character
        classes [\d] and [\s] and [str.lower] are taken on the ASCII range.
        Byte-wise lexicographic order on UTF-8 is code-point order, which is
        Python's order on [str].
      - A Python [float] is an exact rational [Qc]; [NaN] (a missing cell of
        a DataFrame) is [None].  Only comparisons, [min], subtraction,
        multiplication and [round(_, 2)] are used by the modelled code.
      - A [try: ... except Exception: return 0.0] block is an [option]
        computation whose [None] is replaced by the handler's value.
      - A [KeyError] that escapes a function is the [None] of its result. *)

From Stdlib Require Import QArith Qcanon Ascii String.
From stdpp Require Import gmap strings list.

Open Scope string_scope.

(* ================================================================== *)
(** * Text primitives used by the scrapers *)
(* ================================================================== *)

Module Text.

(** Code of an ASCII character. *)
Definition code (c : ascii) : nat := nat_of_ascii c.

(** [\d] on the ASCII range. *)
Definition is_digit (c : ascii) : bool :=
  (48 <=? code c)%nat && (code c <=? 57)%nat.

(** [\s] on the ASCII range: TAB, LF, VT, FF, CR, FS, GS, RS, US, SPACE. *)
Definition is_space (c : ascii) : bool :=
  ((9 <=? code c)%nat && (code c <=? 13)%nat)
  || ((28 <=? code c)%nat && (code c <=? 32)%nat).

(** The class [[\d.]] of [re.findall(r'[\d.]+', text)]. *)
Definition is_numeric (c : ascii) : bool :=
  is_digit c || Ascii.eqb c ".".

(** The class [[\d.,]] of [re.search(r'₹\s*([\d.,]+)', text)]. *)
Definition is_price_char (c : ascii) : bool :=
  is_numeric c || Ascii.eqb c ",".

(** [str.lower] on one ASCII character. *)
Definition lower_char (c : ascii) : ascii :=
  if (65 <=? code c)%nat && (code c <=? 90)%nat
  then ascii_of_nat (code c + 32) else c.

(** [str.lower()]. *)
Fixpoint lower (s : string) : string :=
  match s with
  | "" => ""
  | String c s' => String (lower_char c) (lower s')
  end.

(** [s.replace(',', '')]. *)
Fixpoint remove_commas (s : string) : string :=
  match s with
  | "" => ""
  | String c s' =>
      if Ascii.eqb c "," then remove_commas s' else String c (remove_commas s')
  end.

(** [str.lstrip()]. *)
Fixpoint lstrip (s : string) : string :=
  match s with
  | "" => ""
  | String c s' => if is_space c then lstrip s' else s
  end.

(** [str.rstrip()]: a character is dropped when it is a space and nothing
    but spaces follows it. *)
Fixpoint rstrip (s : string) : string :=
  match s with
  | "" => ""
  | String c s' =>
      match rstrip s' with
      | "" => if is_space c then "" else String c ""
      | r => String c r
      end
  end.

(** [str.strip()]. *)
Definition strip (s : string) : string := rstrip (lstrip s).

(** [sub in s] for Python strings. *)
Fixpoint contains (sub s : string) : bool :=
  String.prefix sub s ||
  match s with
  | "" => false
  | String _ s' => contains sub s'
  end.

(** The longest prefix of [s] whose characters satisfy [p], and the rest. *)
Fixpoint span (p : ascii -> bool) (s : string) : string * string :=
  match s with
  | "" => ("", "")
  | String c s' =>
      if p c then let '(a, b) := span p s' in (String c a, b)
      else ("", s)
  end.

(** Every character of [s] satisfies [p]. *)
Fixpoint all_chars (p : ascii -> bool) (s : string) : bool :=
  match s with
  | "" => true
  | String c s' => p c && all_chars p s'
  end.

(** [s] is not empty and its first character satisfies [p]. *)
Definition starts_with (p : ascii -> bool) (s : string) : bool :=
  match s with
  | "" => false
  | String c _ => p c
  end.

(** [re.findall(r'[\d.]+', text)]: the maximal runs of numeric characters,
    left to right.  [cur] is the run being read. *)
Fixpoint findall_from (cur : string) (s : string) : list string :=
  match s with
  | "" => match cur with "" => [] | _ => [cur] end
  | String c s' =>
      if is_numeric c then findall_from (cur +:+ String c "") s'
      else match cur with
           | "" => findall_from "" s'
           | _ => cur :: findall_from "" s'
           end
  end.

Definition findall_numeric (s : string) : list string := findall_from "" s.

(** Value of a string of decimal digits, most significant first;
    [None] when a character is not a digit. *)
Fixpoint digits_value (acc : Z) (s : string) : option Z :=
  match s with
  | "" => Some acc
  | String c s' =>
      if is_digit c
      then digits_value (10 * acc + Z.of_nat (code c - 48)) s'
      else None
  end.

(** [float(s)] for a string [s] of characters of [[\d.]], the only strings
    the scrapers pass to it: a run of digits with at most one point and at
    least one digit.  [None] is Python's [ValueError]. *)
Definition float_of_numeral (s : string) : option Qc :=
  let '(ip, rest) := span is_digit s in
  match rest with
  | "" =>
      match ip with
      | "" => None
      | _ => n ← digits_value 0 ip; Some (Q2Qc (n # 1))
      end
  | String c fp =>
      if Ascii.eqb c "." then
        match ip, fp with
        | "", "" => None
        | _, _ =>
            n ← digits_value 0 ip;
            f ← digits_value 0 fp;
            let scale := (10 ^ Z.of_nat (String.length fp))%Z in
            Some (Q2Qc ((n * scale + f) # Z.to_pos scale))
        end
      else None
  end.

(** Nearest integer to [n / d], ties to even. *)
Definition round_half_even (n : Z) (d : positive) : Z :=
  let f := (n / Z.pos d)%Z in
  let r := (n mod Z.pos d)%Z in
  if (2 * r <? Z.pos d)%Z then f
  else if (Z.pos d <? 2 * r)%Z then (f + 1)%Z
  else if Z.even f then f else (f + 1)%Z.

(** [round(x, 2)] on an exact rational. *)
Definition round2 (x : Qc) : Qc :=
  let q := (this x * (100 # 1))%Q in
  Q2Qc (round_half_even (Qnum q) (Qden q) # 100).

End Text.

(* ================================================================== *)
(** * The scrapers' normalizers (identical in the three scrapers) *)
(* ================================================================== *)

Module Scraper.
Import Text.

(** U+20B9 INDIAN RUPEE SIGN, bytes E2 82 B9. *)
Definition rupee : string := "₹".

(** The unit detection of [_normalize_weight]:
    ['g' if 'g' in text else ('kg' if 'kg' in text else
      ('ml' if 'ml' in text else ''))]. *)
Definition detect_unit (text : string) : string :=
  if contains "g" text then "g"
  else if contains "kg" text then "kg"
  else if contains "ml" text then "ml"
  else "".

(** The body of the [try] block after [if not nums: return 0.0], up to but
    not including [round]; [None] when a [float(...)] raises. *)
Definition weight_total (text : string) (nums : list string) : option Qc :=
  total ←
    (if contains "x" text && (2 <=? length nums)%nat then
       count ← nums !! 0%nat ≫= float_of_numeral;
       each ← nums !! 1%nat ≫= float_of_numeral;
       Some (count * each)%Qc
     else last nums ≫= float_of_numeral);
  let unit := detect_unit text in
  if String.eqb unit "kg" then Some (total * Q2Qc (1000 # 1))%Qc
  else if String.eqb unit "ml" then Some (total * 1)%Qc
  else Some total.

(** [_normalize_weight(weight_text)]. *)
Definition normalize_weight (weight_text : string) : Qc :=
  let text := strip (remove_commas (lower weight_text)) in
  let nums := findall_numeric text in
  match nums with
  | [] => 0%Qc
  | _ =>
      match weight_total text nums with
      | Some total => round2 total
      | None => 0%Qc
      end
  end.

(** [drop_prefix p s] is [Some t] when [s] is [p] followed by [t]. *)
Fixpoint drop_prefix (p s : string) : option string :=
  match p, s with
  | "", _ => Some s
  | String a p', String b s' =>
      if Ascii.eqb a b then drop_prefix p' s' else None
  | String _ _, "" => None
  end.

(** [re.match] of [₹\s*([\d.,]+)] at the start of [s]: group 1.  The two
    character classes are disjoint, so both repetitions are maximal. *)
Definition match_here (s : string) : option string :=
  after ← drop_prefix rupee s;
  let '(_, t) := span is_space after in
  let '(g, _) := span is_price_char t in
  match g with
  | "" => None
  | _ => Some g
  end.

(** [re.search(r'₹\s*([\d.,]+)', s)]: group 1 of the leftmost match. *)
Fixpoint search (s : string) : option string :=
  match match_here s with
  | Some g => Some g
  | None =>
      match s with
      | "" => None
      | String _ s' => search s'
      end
  end.

(** [_clean_price(price_text)]. *)
Definition clean_price (price_text : string) : Qc :=
  match search price_text with
  | Some g =>
      match float_of_numeral (remove_commas g) with
      | Some v => v
      | None => 0%Qc
      end
  | None => 0%Qc
  end.

(** ** The weight rule in the words of the specification

    "Detect unit among g, kg, ml by substring presence (kg checked only as
    a distinct unit, not as a false-positive of g).  If the text contains
    a multiplicative pattern N x M, multiply the first two numbers;
    otherwise take the last numeric token found.  Convert kg to g by
    x1000; ml is passed through unconverted.  Unparseable text yields 0.0.
    Round to 2 decimals." *)

(** A pattern "N x M" starts here: a numeral character, the letter x, a
    numeral character, with blanks allowed around the letter. *)
Definition nxm_here (s : string) : bool :=
  match s with
  | String c s' =>
      is_numeric c &&
      match snd (span is_space s') with
      | String x t =>
          Ascii.eqb x "x" &&
          match snd (span is_space t) with
          | String d _ => is_numeric d
          | "" => false
          end
      | "" => false
      end
  | "" => false
  end.

Fixpoint has_nxm_pattern (s : string) : bool :=
  nxm_here s ||
  match s with
  | "" => false
  | String _ s' => has_nxm_pattern s'
  end.

Definition spec_unit (text : string) : string :=
  if contains "kg" text then "kg"
  else if contains "g" text then "g"
  else if contains "ml" text then "ml"
  else "".

Definition spec_normalize_weight (weight_text : string) : Qc :=
  let text := strip (remove_commas (lower weight_text)) in
  let nums := findall_numeric text in
  let total :=
    if has_nxm_pattern text then
      count ← nums !! 0%nat ≫= float_of_numeral;
      each ← nums !! 1%nat ≫= float_of_numeral;
      Some (count * each)%Qc
    else last nums ≫= float_of_numeral in
  match total with
  | Some t =>
      round2 (if String.eqb (spec_unit text) "kg"
              then (t * Q2Qc (1000 # 1))%Qc else t)
  | None => 0%Qc
  end.

(** ** Vocabulary of the statements about [_clean_price] *)



End Scraper.

(* ================================================================== *)
(** * DataFrame primitives *)
(* ================================================================== *)

Module Frame.

(** A numeric cell: [None] is [NaN]. *)
Abbreviation num := (option Qc).

(** [x > 0], [x >= 100], [x == 0], [x == y], [x < y] on cells; every
    comparison with [NaN] is false. *)
Definition num_pos (x : num) : bool :=
  match x with Some v => bool_decide (0 < v)%Qc | None => false end.
Definition num_ge (x : num) (b : Qc) : bool :=
  match x with Some v => bool_decide (b ≤ v)%Qc | None => false end.
Definition num_eq (x y : num) : bool :=
  match x, y with
  | Some v, Some w => bool_decide (v = w)
  | _, _ => false
  end.
Definition num_lt (x y : num) : bool :=
  match x, y with
  | Some v, Some w => bool_decide (v < w)%Qc
  | _, _ => false
  end.

(** [x - y] and [x / y * 100]; [NaN] propagates. *)
Definition num_sub (x y : num) : num :=
  v ← x; w ← y; Some (v - w)%Qc.
Definition num_pct (x y : num) : num :=
  v ← x; w ← y; Some (v / w * Q2Qc (100 # 1))%Qc.

(** [Series.min()]: the least non-missing value, [NaN] for none. *)
Definition series_min (l : list num) : num :=
  foldr (λ x acc,
           match x, acc with
           | Some v, Some m => Some (if bool_decide (v ≤ m)%Qc then v else m)
           | Some v, None => Some v
           | None, _ => acc
           end) None l.

Section Unique.
Context {A : Type} `{EqDecision A}.

(** [Series.unique()]: the distinct values in order of first appearance. *)
Fixpoint unique_from (seen : list A) (l : list A) : list A :=
  match l with
  | [] => []
  | x :: l' =>
      if bool_decide (x ∈ seen) then unique_from seen l'
      else x :: unique_from (x :: seen) l'
  end.

Definition unique (l : list A) : list A := unique_from [] l.

(** [Series.nunique()] on a column without missing values. *)
Definition nunique (l : list A) : nat := length (unique l).

(** Number of occurrences of [v]. *)
Definition occurrences (v : A) (l : list A) : nat :=
  length (List.filter (λ w, bool_decide (w = v)) l).
End Unique.

(** Ascending insertion sort of strings ([np.sort] on an object array). *)
Fixpoint insert_asc (x : string) (l : list string) : list string :=
  match l with
  | [] => [x]
  | y :: l' => if String.leb x y then x :: l else y :: insert_asc x l'
  end.

Definition sort_asc (l : list string) : list string := foldr insert_asc [] l.

(** Largest number of occurrences of a value of [l]. *)
Definition max_occurrences (l : list string) : nat :=
  foldr Nat.max 0%nat (map (λ v, occurrences v l) l).

(** [Series.mode()] on a column of strings, missing values dropped
    beforehand: the most frequent values, sorted ascending. *)
Definition mode (l : list string) : list string :=
  sort_asc
    (List.filter (λ v, (occurrences v l =? max_occurrences l)%nat) (unique l)).

(** [min(l)] on a list of strings; [None] is the [ValueError] on []. *)
Definition min_str (l : list string) : option string :=
  match l with
  | [] => None
  | x :: l' => Some (foldl (λ m y, if String.ltb y m then y else m) x l')
  end.

(** ** Vocabulary of the statements about [Series.mode] *)

(** The head of a list is below every other element, recursively. *)
Fixpoint ascending (l : list string) : Prop :=
  match l with
  | [] => True
  | x :: r => (∀ y, y ∈ r → String.le x y) ∧ ascending r
  end.

(** [n] is a most frequent value of [col], and the smallest of them in
    the order of strings. *)
Definition smallest_most_frequent (col : list string) (n : string) : Prop :=
  n ∈ col
  ∧ (∀ v, occurrences v col ≤ occurrences n col)%nat
  ∧ (∀ v, v ∈ col → occurrences v col = occurrences n col → String.le n v).

(** The tie-break in the words of the specification: "most frequent value
    among members (ties broken by first row encountered in iteration
    order)". *)
Definition spec_representative (col : list string) : option string :=
  List.find (λ v, (occurrences v col =? max_occurrences col)%nat) col.

End Frame.

(* ================================================================== *)
(** * thefuzz: the token sort ratio *)
(* ================================================================== *)

(** The scorer the matcher hands to [process.extract] is library code.  The
    statements about the matcher hold for every scorer; this model of it
    serves to run the matcher on concrete keys.  It follows the library:
    [default_process] (characters other than letters, digits and [_] become
    blanks; lower case; trimmed), the tokens sorted and joined by one
    blank, and on the two results the ratio [2 * LCS / (len1 + len2)] in
    percent, rounded to an integer. *)
Module Fuzz.
Import Text.

Definition is_word_char (c : ascii) : bool :=
  is_digit c
  || ((65 <=? code c)%nat && (code c <=? 90)%nat)
  || ((97 <=? code c)%nat && (code c <=? 122)%nat)
  || Ascii.eqb c "_".

Fixpoint blank_non_word (s : string) : string :=
  match s with
  | "" => ""
  | String c s' =>
      String (if is_word_char c then c else " "%char) (blank_non_word s')
  end.

Definition default_process (s : string) : string :=
  lower (strip (blank_non_word s)).

(** [s.split()]: the maximal runs of non-blank characters. *)
Fixpoint split_from (cur : string) (s : string) : list string :=
  match s with
  | "" => match cur with "" => [] | _ => [cur] end
  | String c s' =>
      if is_space c
      then match cur with
           | "" => split_from "" s'
           | _ => cur :: split_from "" s'
           end
      else split_from (cur +:+ String c "") s'
  end.

Definition join_blank (l : list string) : string :=
  String.concat " " l.

Definition token_sort (s : string) : string :=
  join_blank (Frame.sort_asc (split_from "" s)).

(** One row of the longest-common-subsequence table: [prev] is the row of
    the characters read so far against every prefix of [t], [diag] the
    entry up and to the left, [left] the entry to the left. *)
Fixpoint lcs_row (a : ascii) (t : list ascii) (prev : list nat)
    (diag left : nat) : list nat :=
  match t, prev with
  | b :: t', up :: prev' =>
      let v := if Ascii.eqb a b then S diag else Nat.max up left in
      v :: lcs_row a t' prev' up v
  | _, _ => []
  end.

Definition lcs_length (s t : string) : nat :=
  let tl := list_ascii_of_string t in
  List.last
    (foldl (λ prev a, lcs_row a tl prev 0 0)
           (map (λ _, 0%nat) tl) (list_ascii_of_string s))
    0%nat.

Definition ratio (s t : string) : nat :=
  let total := (String.length s + String.length t)%nat in
  match total with
  | O => 100
  | _ => Z.to_nat (round_half_even (Z.of_nat (200 * lcs_length s t))
                                   (Pos.of_nat total))
  end.

Definition token_sort_ratio (s t : string) : nat :=
  ratio (token_sort (default_process s)) (token_sort (default_process t)).


End Fuzz.

(* ================================================================== *)
(** * src/data_manager.py and src/data_analyser.py *)
(* ================================================================== *)

Module Analyser.
Import Text Frame.

(** A row of the product table as it is stored in the CSV file. *)
Record Row := mkRow {
  name : option string;
  brand : option string;
  weight : num;
  price : num;
  platform : string;
  price_per_100g : num
}.

(** A row after [load_and_preprocess]: the columns [brand_standardized]
    and [product_key] have been added. *)
Record KeyedRow := mkKeyed {
  base :> Row;
  brand_standardized : string;
  product_key : string
}.

(** A row after [fuzzy_match_products]: the column [product_group] has
    been added; [None] is the [NaN] that [Series.map] leaves for a key
    absent from the mapping. *)
Record GroupedRow := mkGrouped {
  keyed :> KeyedRow;
  product_group : option nat
}.

(** A product dictionary as a scraper emits it, tagged with its platform. *)
Record Product := mkProduct {
  p_name : option string;
  p_brand : option string;
  p_weight : num;
  p_price : num;
  p_platform : string
}.

(** [DataManager.convert_to_dataframe]:
    [df['price_per_100g'] = ((df['price'] / df['weight']) * 100).round(2)].
    A division by a zero weight gives an infinity or [NaN]; both are
    rendered as a missing cell, and such rows never pass the weight filter
    of [load_and_preprocess]. *)
Definition per_100g (p w : num) : num :=
  v ← p; g ← w;
  if bool_decide (g = 0%Qc) then None
  else Some (round2 (v / g * Q2Qc (100 # 1))%Qc).

Definition convert_to_dataframe (products : list Product) : list Row :=
  map (λ p, {| name := p_name p; brand := p_brand p; weight := p_weight p;
               price := p_price p; platform := p_platform p;
               price_per_100g := per_100g (p_price p) (p_weight p) |})
      products.

(** [s.replace(sub, '')] for a non-empty [sub]: non-overlapping occurrences
    are removed left to right.  [skip] counts the characters of the
    occurrence being removed that are still to be dropped. *)
Fixpoint remove_all_go (sub : string) (skip : nat) (s : string) : string :=
  match s with
  | "" => ""
  | String c s' =>
      match skip with
      | S k => remove_all_go sub k s'
      | O =>
          if String.prefix sub s
          then remove_all_go sub (String.length sub - 1) s'
          else String c (remove_all_go sub 0 s')
      end
  end.

Definition clean_label : string := " | Clean Label - Not Brown".

(** Lines 28-29: the marketing suffix is removed and the name trimmed;
    a missing name stays missing. *)
Definition clean_name (n : option string) : option string :=
  (λ s, strip (remove_all_go clean_label 0 s)) <$> n.

Definition set_name (n : option string) (r : Row) : Row :=
  {| name := n; brand := brand r; weight := weight r; price := price r;
     platform := platform r; price_per_100g := price_per_100g r |}.

(** The three filters of lines 32-34, in order:
    [dropna(subset=['name','price'])], [price > 0], [weight >= 100]. *)
Definition keep_row (r : Row) : bool :=
  bool_decide (is_Some (name r)) && bool_decide (is_Some (price r))
  && num_pos (price r) && num_ge (weight r) (Q2Qc (100 # 1)).

Section Preprocess.
(** [_standardize_brand] and [_create_product_key] only label rows; what
    they compute is immaterial to the filtering and grouping statements
    below, so they are parameters of the embedding.  The key is computed
    from the row and its standardized brand. *)
Variable standardize_brand : option string → string.
Variable create_product_key : Row → string → string.

(** [load_and_preprocess], from the rows read out of the CSV file. *)
Definition load_and_preprocess (csv : list Row) : list KeyedRow :=
  let df := map (λ r, set_name (clean_name (name r)) r) csv in
  let df := List.filter keep_row df in
  map (λ r, let b := standardize_brand (brand r) in
            {| base := r; brand_standardized := b;
               product_key := create_product_key r b |}) df.
End Preprocess.

(** ** Cross-platform matcher *)

(** Stable descending insertion by score: [x], which precedes every element
    of [l] in the original order, goes before the first element whose score
    does not exceed its own. *)
Fixpoint insert_desc (x : string * nat) (l : list (string * nat))
  : list (string * nat) :=
  match l with
  | [] => [x]
  | y :: l' => if (snd y <=? snd x)%nat then x :: l else y :: insert_desc x l'
  end.

Definition sort_desc (l : list (string * nat)) : list (string * nat) :=
  foldr insert_desc [] l.

(** The dictionary [product_groups], in insertion order.
    [extend_group gk ms pg] is
    [if gk not in pg: pg[gk] = []] followed by [pg[gk].extend(ms)]. *)
Fixpoint extend_group (group_key : string) (ms : list string)
    (pg : list (string * list string)) : list (string * list string) :=
  match pg with
  | [] => [(group_key, ms)]
  | (k, v) :: pg' =>
      if String.eqb k group_key then (k, (v ++ ms)%list) :: pg'
      else (k, v) :: extend_group group_key ms pg'
  end.

(** [for key in product_keys: group_mapping[key] = group_id]. *)
Definition assign_group (m : gmap string nat) (group_id : nat)
    (product_keys : list string) : gmap string nat :=
  foldl (λ m key, <[key := group_id]> m) m product_keys.

(** [for group_id, product_keys in enumerate(groups)], counting from
    [group_id]. *)
Fixpoint assign_groups (m : gmap string nat) (group_id : nat)
    (groups : list (list string)) : gmap string nat :=
  match groups with
  | [] => m
  | product_keys :: rest =>
      assign_groups (assign_group m group_id product_keys) (S group_id) rest
  end.

Definition group_mapping (product_groups : list (string * list string))
  : gmap string nat :=
  assign_groups ∅ 0 (map snd product_groups).

Section Matcher.
(** [fuzz.token_sort_ratio] of thefuzz, with the processing
    [process.extract] applies to query and choice: an integer score. *)
Variable scorer : string → string → nat.

(** [process.extract(query, choices, scorer=scorer, limit=limit)]: the
    [limit] best [(choice, score)] pairs, best first, ties in the order
    of [choices]. *)
Definition extract (query : string) (choices : list string) (limit : nat)
  : list (string * nat) :=
  take limit (sort_desc (map (λ c, (c, scorer query c)) choices)).

(** [[match[0] for match in matches if match[1] >= threshold]]. *)
Definition high_matches (threshold : nat) (unique_products : list string)
    (product_key : string) : list string :=
  map fst (List.filter (λ m, (threshold <=? snd m)%nat)
                       (extract product_key unique_products 10)).

(** One iteration of the loop of lines 89-102. *)
Definition add_matches (threshold : nat) (unique_products : list string)
    (product_groups : list (string * list string)) (product_key : string)
  : list (string * list string) :=
  let hm := high_matches threshold unique_products product_key in
  match min_str hm with
  | Some group_key => extend_group group_key hm product_groups
  | None => product_groups
  end.

Definition build_groups (threshold : nat) (unique_products : list string)
  : list (string * list string) :=
  foldl (add_matches threshold unique_products) [] unique_products.

(** [fuzzy_match_products(df, threshold)]. *)
Definition fuzzy_match_products (df : list KeyedRow) (threshold : nat)
  : list GroupedRow :=
  let unique_products := unique (map product_key df) in
  let mapping := group_mapping (build_groups threshold unique_products) in
  map (λ r, {| keyed := r; product_group := mapping !! product_key r |}) df.
End Matcher.

(** ** Deal identifier *)

Record Deal := mkDeal {
  deal_product_group : option nat;
  deal_name : option string;
  deal_brand : string;
  deal_weight : num;
  deal_price : num;
  deal_price_per_100g : num;
  deal_platform : string;
  is_best_deal : bool;
  price_difference : num;
  price_difference_percent : num;
  savings_opportunity : num
}.

(** [column == group_id] on a column of group ids: [NaN] equals nothing. *)
Definition group_is (group_id : option nat) (g : option nat) : bool :=
  match group_id, g with
  | Some a, Some b => (a =? b)%nat
  | _, _ => false
  end.

(** The dictionary appended at lines 173-185. *)
Definition make_deal (group_id : option nat) (min_price : num)
    (product : GroupedRow) : Deal :=
  let price_diff := num_sub (price_per_100g product) min_price in
  let price_diff_percent :=
    if num_pos min_price then num_pct price_diff min_price else Some 0%Qc in
  let best := num_eq (price_per_100g product) min_price in
  {| deal_product_group := group_id;
     deal_name := name product;
     deal_brand := brand_standardized product;
     deal_weight := weight product;
     deal_price := price product;
     deal_price_per_100g := price_per_100g product;
     deal_platform := platform product;
     is_best_deal := best;
     price_difference := price_diff;
     price_difference_percent := price_diff_percent;
     savings_opportunity := if negb best then price_diff else Some 0%Qc |}.

(** The body of the loop over groups, lines 149-185. *)
Definition group_deals (df : list GroupedRow) (group_id : option nat)
  : list Deal :=
  let group_products :=
    List.filter (λ r, group_is group_id (product_group r)) df in
  let platforms_in_group :=
    nunique (map (λ r : GroupedRow, platform r) group_products) in
  if (platforms_in_group <? 2)%nat then []
  else
    let available_products :=
      List.filter (λ r : GroupedRow, num_pos (price_per_100g r))
                  group_products in
    if (length available_products <? 2)%nat then []
    else
      let min_price :=
        series_min (map (λ r : GroupedRow, price_per_100g r)
                        available_products) in
      flat_map (λ product : GroupedRow,
                  if num_eq (price_per_100g product) (Some 0%Qc) then []
                  else [make_deal group_id min_price product])
               group_products.

(** [identify_best_deals(df)]. *)
Definition identify_best_deals (df : list GroupedRow) : list Deal :=
  flat_map (group_deals df) (unique (map product_group df)).

(** ** Comparison table builder *)

(** The three columns a platform owns in a row of the table.  For the
    price columns the outer [None] is Python's [None], the inner one
    [NaN]. *)
Record Slot := mkSlot {
  slot_price : option num;
  slot_per_100g : option num;
  slot_is_best : bool
}.

(** A row of the table.  [slots] maps a platform [p] to the columns
    [p_price], [p_per_100g] and [p_is_best]; a platform outside its domain
    is a key the dictionary [row] does not have. *)
Record ComparisonRow := mkComparisonRow {
  product_name : option string;
  row_brand : option string;
  is_comparable : bool;
  platforms_available : nat;
  slots : gmap string Slot
}.

Definition platforms : list string := ["blinkit"; "zepto"; "bbnow"].

(** Lines 218-224. *)
Definition initial_slots : gmap string Slot :=
  foldl (λ m p, <[p := mkSlot None None false]> m) ∅ platforms.

(** [col.mode()[0] if not col.mode().empty else group.iloc[0][col]]; the
    outer [None] is the [IndexError] of [iloc[0]] on an empty group. *)
Definition representative (col : list (option string))
  : option (option string) :=
  match mode (omap id col) with
  | m :: _ => Some (Some m)
  | [] => match col with
          | v :: _ => Some v
          | [] => None
          end
  end.

(** Lines 227-235: the running minimum starts at [float('inf')], here
    [None], and moves on a strict [<] only. *)
Definition best_step (acc : option Qc * option string) (product : Deal)
  : option Qc * option string :=
  match deal_price_per_100g product with
  | Some v =>
      match fst acc with
      | Some b =>
          if bool_decide (v < b)%Qc then (Some v, Some (deal_platform product))
          else acc
      | None => (Some v, Some (deal_platform product))
      end
  | None => acc
  end.

Definition best_deal_platform (comparable : bool) (group_products : list Deal)
  : option string :=
  if comparable then snd (foldl best_step (None, None) group_products)
  else None.

(** One iteration of the loop of lines 239-250; [None] is the [KeyError]
    of [row[f'{platform}_per_100g']]. *)
Definition populate_step (comparable : bool) (best : option string)
    (row : gmap string Slot) (product : Deal) : option (gmap string Slot) :=
  let p := deal_platform product in
  slot ← row !! p;
  let slot1 :=
    match slot_per_100g slot with
    | Some cur =>
        if num_lt (deal_price_per_100g product) cur
        then mkSlot (Some (deal_price product))
                    (Some (deal_price_per_100g product)) (slot_is_best slot)
        else slot
    | None =>
        mkSlot (Some (deal_price product))
               (Some (deal_price_per_100g product)) (slot_is_best slot)
    end in
  let slot2 :=
    if comparable && bool_decide (Some p = best)
    then mkSlot (slot_price slot1) (slot_per_100g slot1) true
    else slot1 in
  Some (<[p := slot2]> row).

Fixpoint populate (comparable : bool) (best : option string)
    (row : gmap string Slot) (group_products : list Deal)
  : option (gmap string Slot) :=
  match group_products with
  | [] => Some row
  | product :: rest =>
      row' ← populate_step comparable best row product;
      populate comparable best row' rest
  end.

(** The body of the loop over groups, lines 201-252. *)
Definition comparison_row (deals_df : list Deal) (group_id : option nat)
  : option ComparisonRow :=
  let group_products :=
    List.filter (λ d, group_is group_id (deal_product_group d)) deals_df in
  nm ← representative (map deal_name group_products);
  br ← representative (map (λ d, Some (deal_brand d)) group_products);
  let platforms_present := nunique (map deal_platform group_products) in
  let comparable := (2 <=? platforms_present)%nat in
  let best := best_deal_platform comparable group_products in
  sl ← populate comparable best initial_slots group_products;
  Some {| product_name := nm; row_brand := br; is_comparable := comparable;
          platforms_available := platforms_present; slots := sl |}.

(** [create_comparison_table(deals_df)].  An empty list of deals is a
    DataFrame without columns, on which [deals_df['product_group']] raises
    [KeyError]. *)
Definition create_comparison_table (deals_df : list Deal)
  : option (list ComparisonRow) :=
  match deals_df with
  | [] => None
  | _ =>
      mapM (comparison_row deals_df)
           (unique (map deal_product_group deals_df))
  end.

(** ** run_analysis.py: the stages chained *)

Section Pipeline.
Variable standardize_brand : option string → string.
Variable create_product_key : Row → string → string.
Variable scorer : string → string → nat.

(** [df_matched = fuzzy_match_products(load_and_preprocess(csv))], with
    the default threshold 80. *)
Definition matched (csv : list Row) : list GroupedRow :=
  fuzzy_match_products scorer
    (load_and_preprocess standardize_brand create_product_key csv) 80.

(** [deals_df = identify_best_deals(df_matched)]. *)
Definition deals (csv : list Row) : list Deal :=
  identify_best_deals (matched csv).

(** [comparison_table = create_comparison_table(deals_df)]. *)
Definition comparison_table (csv : list Row) : option (list ComparisonRow) :=
  create_comparison_table (deals csv).
End Pipeline.

(** ** Vocabulary of the statements about the analyser *)


(** [i] is the position of the last list of [groups] that holds [k]. *)
Definition last_holding (groups : list (list string)) (k : string) (i : nat)
  : Prop :=
  (∃ ks, groups !! i = Some ks ∧ k ∈ ks)
  ∧ ∀ j ks, groups !! j = Some ks → k ∈ ks → (j ≤ i)%nat.

Section MatchSets.
Variable scorer : string → string → nat.
Variable threshold : nat.
Variable keys : list string.




End MatchSets.



(** The rows of [df] whose group id is [g]:
    [df[df['product_group'] == g]]. *)
Definition group_rows (df : list GroupedRow) (g : nat) : list GroupedRow :=
  List.filter (λ r, group_is (Some g) (product_group r)) df.

(** The positively priced rows of a group, [available_products]. *)
Definition available (rows : list GroupedRow) : list GroupedRow :=
  List.filter (λ r : GroupedRow, num_pos (price_per_100g r)) rows.

(** The rows the inner loop does not skip. *)
Definition priced (rows : list GroupedRow) : list GroupedRow :=
  List.filter (λ r : GroupedRow, negb (num_eq (price_per_100g r) (Some 0%Qc)))
              rows.

(** [min_price] of a group. *)
Definition min_price (rows : list GroupedRow) : num :=
  series_min (map (λ r : GroupedRow, price_per_100g r) (available rows)).

(** Every normalized price is a number and is not negative. *)
Definition prices_nonneg (df : list GroupedRow) : Prop :=
  ∀ r : GroupedRow, r ∈ df → ∃ p, price_per_100g r = Some p ∧ (0 ≤ p)%Qc.

(** What the filters of [load_and_preprocess] guarantee of a row. *)
Definition valid_row (r : Row) : Prop :=
  is_Some (name r)
  ∧ (∃ p, price r = Some p ∧ (0 < p)%Qc)
  ∧ (∃ w, weight r = Some w ∧ (Q2Qc (100 # 1) ≤ w)%Qc).

(** The same of the columns a deal copies from its row. *)
Definition valid_deal (d : Deal) : Prop :=
  is_Some (deal_name d)
  ∧ (∃ p, deal_price d = Some p ∧ (0 < p)%Qc)
  ∧ (∃ w, deal_weight d = Some w ∧ (Q2Qc (100 # 1) ≤ w)%Qc).

(** The deals of [deals_df] whose group id is [gid]. *)
Definition group_of (deals_df : list Deal) (gid : option nat) : list Deal :=
  List.filter (λ d, group_is gid (deal_product_group d)) deals_df.



(** Every price a slot map shows is the price of a deal of [group] on the
    platform of the slot. *)
Definition prices_from (group : list Deal) (m : gmap string Slot) : Prop :=
  ∀ p s x, m !! p = Some s → slot_price s = Some x →
           ∃ d, d ∈ group ∧ deal_platform d = p ∧ deal_price d = x.

End Analyser.

(* ================================================================== *)
(** * Concrete frames the statements are run on *)
(* ================================================================== *)

Module Scenario.
Import Text Frame Analyser.

(** Three products after matching: two listings of one bread on two
    platforms, and a loaf only one platform sells. *)
Definition row_a : GroupedRow :=
  {| keyed := {| base := {| name := Some "White Bread";
                            brand := Some "Britannia";
                            weight := Some (Q2Qc (400 # 1));
                            price := Some (Q2Qc (55 # 1));
                            platform := "blinkit";
                            price_per_100g := Some (Q2Qc (1375 # 100)) |};
                 brand_standardized := "Britannia";
                 product_key := "britannia_white bread" |};
     product_group := Some 0%nat |}.

Definition row_b : GroupedRow :=
  {| keyed := {| base := {| name := Some "White Bread";
                            brand := Some "Britannia";
                            weight := Some (Q2Qc (400 # 1));
                            price := Some (Q2Qc (50 # 1));
                            platform := "zepto";
                            price_per_100g := Some (Q2Qc (125 # 10)) |};
                 brand_standardized := "Britannia";
                 product_key := "britannia_white bread" |};
     product_group := Some 0%nat |}.

Definition row_c : GroupedRow :=
  {| keyed := {| base := {| name := Some "Local Loaf";
                            brand := Some "Local";
                            weight := Some (Q2Qc (300 # 1));
                            price := Some (Q2Qc (40 # 1));
                            platform := "bbnow";
                            price_per_100g := Some (Q2Qc (1333 # 100)) |};
                 brand_standardized := "Local";
                 product_key := "local_local loaf" |};
     product_group := Some 1%nat |}.

Definition df_matched : list GroupedRow := [row_a; row_b; row_c].

Definition deals_df : list Deal := identify_best_deals df_matched.

Definition table : list ComparisonRow :=
  default [] (create_comparison_table deals_df).

(** The deal of the cheaper listing. *)
Definition deal_b : Deal :=
  make_deal (Some 0%nat) (Some (Q2Qc (125 # 10))) row_b.

(** The rows of the file the scenario starts from. *)
Definition csv : list Row := map (λ r : GroupedRow, base r) df_matched.

(** Two listings of one sliced brown bread, matched into one group, and
    the deals made of them. *)
Definition tie_rows : list GroupedRow :=
  [ {| keyed := {| base := {| name := Some "Brown Bread (Sliced)";
                              brand := Some "Modern";
                              weight := Some (Q2Qc (400 # 1));
                              price := Some (Q2Qc (50 # 1));
                              platform := "zepto";
                              price_per_100g := Some (Q2Qc (125 # 10)) |};
                   brand_standardized := "Modern";
                   product_key := "modern_brown bread" |};
       product_group := Some 0%nat |};
    {| keyed := {| base := {| name := Some "Brown Bread";
                              brand := Some "Modern";
                              weight := Some (Q2Qc (400 # 1));
                              price := Some (Q2Qc (55 # 1));
                              platform := "blinkit";
                              price_per_100g := Some (Q2Qc (1375 # 100)) |};
                   brand_standardized := "Modern";
                   product_key := "modern_brown bread" |};
       product_group := Some 0%nat |} ].

Definition tie_deals : list Deal := identify_best_deals tie_rows.

(** A preprocessed row that carries [key]. *)
Definition row_with_key (key : string) : KeyedRow :=
  {| base := {| name := Some "Bread"; brand := Some "Modern";
                weight := Some (Q2Qc (400 # 1)); price := Some (Q2Qc (50 # 1));
                platform := "zepto";
                price_per_100g := Some (Q2Qc (125 # 10)) |};
     brand_standardized := "Modern"; product_key := key |}.


End Scenario.

(* ================================================================== *)
(** * The scrapers: what is extracted from a product element *)
(* ================================================================== *)

(** The browser side of the scrapers (navigation, scrolling, screenshots,
    delays) is input and output and is not modelled.  A product element is
    represented by the texts its selectors yield, [None] when
    [query_selector] finds no element.  Lengths and character tests are
    those of ASCII text, on which a byte is a character. *)
Module Extractor.
Import Text Scraper Fuzz Analyser.

(** [bread_keywords] of [_is_bread_product]. *)
Definition bread_keywords : list string :=
  ["bread"; "loaf"; "bun"; "pav"; "slice"].

(** [_is_bread_product(product_data)], as a function of
    [product_data['name']]. *)
Definition is_bread_product (name : string) : bool :=
  existsb (λ keyword, contains keyword (lower name)) bread_keywords.

(** [common_brands] of [_extract_brand_from_name]. *)
Definition common_brands : list string :=
  ["Britannia"; "Modern"; "Harvest Gold"; "English Oven";
   "The Health Factory"; "Brittania"; "Wibs"; "Perfect Bread";
   "Bonn"; "Fresh"; "Daily"; "Premium"; "Baker's"].

(** [c.isupper()] and [c.islower()] on the ASCII range. *)
Definition is_upper (c : ascii) : bool :=
  (65 <=? code c)%nat && (code c <=? 90)%nat.
Definition is_lower (c : ascii) : bool :=
  (97 <=? code c)%nat && (code c <=? 122)%nat.

(** [_extract_brand_from_name(product_name)]; [None] is the [IndexError]
    of [product_name.split()[0]] on a name without a word. *)
Definition extract_brand_from_name (product_name : string) : option string :=
  if String.eqb product_name "" || String.eqb product_name "Unknown"
  then Some "Unknown"
  else
    let product_name_lower := lower product_name in
    match List.find (λ brand, contains (lower brand) product_name_lower)
                    common_brands with
    | Some brand => Some brand
    | None =>
        first_word ← head (split_from "" product_name);
        if (2 <? String.length first_word)%nat
           && starts_with is_upper first_word
        then Some first_word
        else Some "Unknown"
    end.

(** The texts of one product element. *)
Record Element := mkElement {
  name_element : option string;
  price_element : option string;
  brand_element : option string;
  weight_element : option string
}.

(** A product dictionary as [_extract_product_data] returns it. *)
Record Scraped := mkScraped {
  s_name : string;
  s_brand : string;
  s_weight : Qc;
  s_price : Qc;
  s_platform : string
}.

(** [_extract_product_data] of the Zepto and Blinkit scrapers, which take
    the brand out of the name; [None] is the [None] the [except] branch
    returns. *)
Definition extract_product_data (platform_name : string) (e : Element)
  : option Scraped :=
  let name := default "Unknown" (name_element e) in
  let price_text := default "0" (price_element e) in
  let weight := default "Unknown" (weight_element e) in
  brand ← extract_brand_from_name name;
  let name :=
    if contains brand name then strip (remove_all_go brand 0 name)
    else name in
  Some {| s_name := strip name; s_brand := brand;
          s_weight := normalize_weight weight;
          s_price := clean_price price_text;
          s_platform := platform_name |}.

(** [_extract_product_data] of the BigBasket scraper, which reads the brand
    from an element of its own. *)
Definition extract_product_data_bbnow (e : Element) : option Scraped :=
  let name := default "Unknown" (name_element e) in
  let price_text := default "0" (price_element e) in
  let brand := default "Unknown" (brand_element e) in
  let weight := default "Unknown" (weight_element e) in
  Some {| s_name := strip name; s_brand := strip brand;
          s_weight := normalize_weight weight;
          s_price := clean_price price_text;
          s_platform := "bbnow" |}.

(** [config.NUMBER_OF_PRODUCTS]. *)
Definition NUMBER_OF_PRODUCTS : nat := 30.

(** The loop of [scrape_products] over [products[:self.num_prod]]:
    [if product_data and self._is_bread_product(product_data):
       self.data.append(product_data)]. *)
Definition collect (extract : Element → option Scraped)
    (products : list Element) : list Scraped :=
  omap (λ product,
          product_data ← extract product;
          if is_bread_product (s_name product_data)
          then Some product_data else None)
       (take NUMBER_OF_PRODUCTS products).

Definition scrape_zepto : list Element → list Scraped :=
  collect (extract_product_data "zepto").
Definition scrape_blinkit : list Element → list Scraped :=
  collect (extract_product_data "blinkit").
Definition scrape_bbnow : list Element → list Scraped :=
  collect extract_product_data_bbnow.

(** ** src/data_manager.py: the combined structure *)

(** [all_platforms_data] of [run_scrapers.py]: a dictionary from platform
    name to the scraper's list, in insertion order. *)
Definition all_platforms_data (blinkit zepto bbnow : list Scraped)
  : list (string * list Scraped) :=
  [("blinkit", blinkit); ("zepto", zepto); ("bbnow", bbnow)].

(** [save_combined_data]:
    [sum(len(data) for data in all_platforms_data.values())]. *)
Definition total_products (all_data : list (string * list Scraped)) : nat :=
  foldr Nat.add 0%nat (map (λ b, length (snd b)) all_data).

(** Lines 94-99 of [convert_to_dataframe]: [row = product.copy()] and
    [row['platform'] = platform_name], the name of the block and not the
    entry the product came with. *)
Definition tag (platform_name : string) (product : Scraped) : Product :=
  {| p_name := Some (s_name product); p_brand := Some (s_brand product);
     p_weight := Some (s_weight product); p_price := Some (s_price product);
     p_platform := platform_name |}.

Definition platform_rows (all_data : list (string * list Scraped))
  : list Product :=
  flat_map (λ b, map (tag (fst b)) (snd b)) all_data.

(** [convert_to_dataframe(combined_data)] on the structure
    [save_combined_data] wrote. *)
Definition dataframe (all_data : list (string * list Scraped)) : list Row :=
  convert_to_dataframe (platform_rows all_data).

(** ** Vocabulary of the statements about the scrapers *)


End Extractor.

(* ================================================================== *)
(** * src/data_analyser.py: the labels of a row *)
(* ================================================================== *)

(** As for the scrapers, the text is taken to be ASCII: [str.upper],
    [str.title] and the classes [\w], [\s] and [\b] of the regular
    expressions are those of the ASCII range. *)
Module Labels.
Import Text Fuzz Analyser Extractor.

(** [str.upper] on one ASCII character. *)
Definition upper_char (c : ascii) : ascii :=
  if is_lower c then ascii_of_nat (code c - 32) else c.

(** [str.upper()]. *)
Fixpoint upper (s : string) : string :=
  match s with
  | "" => ""
  | String c s' => String (upper_char c) (upper s')
  end.

(** [str.title()]: a letter that follows a letter is lowered, a letter
    that does not is raised; any other character ends the word. *)
Fixpoint title_from (previous_is_cased : bool) (s : string) : string :=
  match s with
  | "" => ""
  | String c s' =>
      if is_lower c then
        String (if previous_is_cased then c else upper_char c)
               (title_from true s')
      else if is_upper c then
        String (if previous_is_cased then lower_char c else c)
               (title_from true s')
      else String c (title_from false s')
  end.

Definition title (s : string) : string := title_from false s.

(** [brand_mappings] of [_standardize_brand], in the order of the
    literal. *)
Definition brand_mappings : list (string * string) :=
  [("BRITANNIA", "Britannia"); ("MODERN", "Modern");
   ("HARVEST GOLD", "Harvest Gold"); ("ENGLISH OVEN", "English Oven");
   ("THE HEALTH FACTORY", "The Health Factory");
   ("BRITTANIA", "Britannia"); ("WIBs", "Wibs"); ("BONN", "Bonn");
   ("FRESH", "Fresh"); ("DAILY", "Daily")].

(** [d.get(key)] on a dictionary literal. *)
Fixpoint dict_get (key : string) (d : list (string * string))
  : option string :=
  match d with
  | [] => None
  | (k, v) :: d' => if String.eqb k key then Some v else dict_get key d'
  end.

(** [_standardize_brand(brand)]; a missing brand is [None]. *)
Definition standardize_brand (brand : option string) : string :=
  match brand with
  | None => "Unknown"
  | Some brand =>
      if String.eqb brand "Unknown" then "Unknown"
      else
        let brand := strip (upper brand) in
        default (title brand) (dict_get brand brand_mappings)
  end.

(** The alternatives of the pattern
    [\b(whole wheat|atta|sliced|fresh|premium)\b], in order. *)
Definition variations : list string :=
  ["whole wheat"; "atta"; "sliced"; "fresh"; "premium"].

(** [\w] on a neighbouring character; there is none at either end of the
    string. *)
Definition is_word (c : option ascii) : bool :=
  match c with
  | Some c => is_word_char c
  | None => false
  end.

(** [\b] between the characters [before] and [after]. *)
Definition boundary (before after : option ascii) : bool :=
  xorb (is_word before) (is_word after).

Definition head_char (s : string) : option ascii :=
  match s with
  | "" => None
  | String c _ => Some c
  end.

(** The last character of [s], [before] when [s] is empty. *)
Fixpoint last_char (before : option ascii) (s : string) : option ascii :=
  match s with
  | "" => before
  | String c s' => last_char (Some c) s'
  end.

(** [drop n s]. *)
Fixpoint string_drop (n : nat) (s : string) : string :=
  match n, s with
  | S n', String _ s' => string_drop n' s'
  | _, _ => s
  end.

(** A match of the pattern at the head of [s], the character before which
    is [before]: the first alternative that is a prefix of [s] and is
    followed by a word boundary. *)
Definition match_variation (before : option ascii) (s : string)
  : option string :=
  if boundary before (head_char s) then
    List.find (λ v, String.prefix v s
                    && boundary (last_char before v)
                                (head_char (string_drop (String.length v) s)))
              variations
  else None.

(** [re.sub(r'\b(whole wheat|atta|sliced|fresh|premium)\b', '', s)]: the
    matches are removed left to right; [skip] counts the characters of the
    match being removed that are still to be dropped. *)
Fixpoint sub_variations (before : option ascii) (skip : nat) (s : string)
  : string :=
  match s with
  | "" => ""
  | String c s' =>
      match skip with
      | S k => sub_variations (Some c) k s'
      | O =>
          match match_variation before s with
          | Some v => sub_variations (Some c) (String.length v - 1) s'
          | None => String c (sub_variations (Some c) 0 s')
          end
      end
  end.

(** The characters of [s] that satisfy [p]. *)
Fixpoint filter_chars (p : ascii → bool) (s : string) : string :=
  match s with
  | "" => ""
  | String c s' =>
      if p c then String c (filter_chars p s') else filter_chars p s'
  end.

(** [re.sub(r'[^\w\s]', '', s)]. *)
Definition remove_punctuation (s : string) : string :=
  filter_chars (λ c, is_word_char c || is_space c) s.

(** Lines 75-77 on the lowered name. *)
Definition normalize_name (name : string) : string :=
  let name := sub_variations None 0 name in
  let name := remove_punctuation name in
  join_blank (split_from "" name).

(** [_create_product_key(row)]; [str] of a missing name is ["nan"]. *)
Definition create_product_key (row : Row) (brand_standardized : string)
  : string :=
  let name := lower (default "nan" (name row)) in
  let brand := lower brand_standardized in
  brand +:+ "_" +:+ normalize_name name.

(** ** Vocabulary of the statements about the labels *)

(** A lower-case letter, a digit or an underscore. *)
Definition is_key_char (c : ascii) : bool :=
  is_word_char c && negb (is_upper c).

(** A non-empty word of key characters. *)
Definition key_word (w : string) : Prop :=
  w ≠ "" ∧ all_chars is_key_char w = true.

End Labels.

(* ================================================================== *)
(** * The figures reported from the deals and the table *)
(* ================================================================== *)

Module Reports.
Import Text Frame Analyser.

(** [Series.max()]: the greatest non-missing value, [NaN] for none. *)
Definition series_max (l : list num) : num :=
  foldr (λ x acc,
           match x, acc with
           | Some v, Some m => Some (if bool_decide (m ≤ v)%Qc then v else m)
           | Some v, None => Some v
           | None, _ => acc
           end) None l.

(** [Series.mean()]: the mean of the non-missing values, [NaN] for none. *)
Definition series_mean (l : list num) : num :=
  match omap id l with
  | [] => None
  | vs => Some (foldr Qcplus 0%Qc vs / Q2Qc (Z.of_nat (length vs) # 1))%Qc
  end.

(** The entries ['avg_price_difference'] and ['max_savings_opportunity']
    of [generate_insights(deals_df)].  The other entries (the per-platform
    statistics, the counts of best deals, the five worst deals) do not
    enter them and are not modelled.  On a frame without rows, which has
    no columns, [deals_df.groupby('platform')] raises [KeyError] before
    any entry is computed: the [None] of the result. *)
Record Insights := mkInsights {
  avg_price_difference : num;
  max_savings_opportunity : num
}.

Definition generate_insights (deals_df : list Deal) : option Insights :=
  match deals_df with
  | [] => None
  | _ =>
      Some {| avg_price_difference :=
                series_mean (map price_difference_percent deals_df);
              max_savings_opportunity :=
                series_max (map savings_opportunity deals_df) |}
  end.

(** [run_analysis.py], line 65: [deals_df['is_best_deal'].sum()]. *)
Definition best_deals_found (deals_df : list Deal) : nat :=
  length (List.filter is_best_deal deals_df).

(** [get_min_price(row)] of [dashboard/app.py], the sort key of the order
    "Best Price": the least of the per-100 g prices the row shows, where
    [pd.notna] drops an empty slot and a missing cell alike.  The inner
    [None] is [float('inf')], the outer one the [KeyError] of a row
    without the column of a platform. *)
Definition get_min_price (row : ComparisonRow) : option (option Qc) :=
  cells ← mapM (λ p, slot_per_100g <$> slots row !! p) platforms;
  match omap (λ cell : option num, cell ≫= id) cells with
  | [] => Some None
  | v :: prices =>
      Some (Some (foldl (λ m x, if bool_decide (x < m)%Qc then x else m)
                        v prices))
  end.

(** ** Vocabulary of the statements about the table and the reports *)

(** The deals of [group] on platform [p]. *)
Definition on_platform (group : list Deal) (p : string) : list Deal :=
  List.filter (λ d, bool_decide (deal_platform d = p)) group.

(** [d] is the first deal of [ds] whose price per 100 g, [v], is the least
    of [ds]: every earlier price is strictly greater, no later one is
    smaller. *)
Definition first_cheapest (ds : list Deal) (d : Deal) (v : Qc) : Prop :=
  ∃ pre post,
    ds = (pre ++ d :: post)%list
    ∧ deal_price_per_100g d = Some v
    ∧ (∀ e w, e ∈ pre → deal_price_per_100g e = Some w → (v < w)%Qc)
    ∧ (∀ e w, e ∈ post → deal_price_per_100g e = Some w → (v ≤ w)%Qc).

(** What the slot of a platform shows of the deals [ds] the platform has
    in a group: nothing when it has none, else the price and the price
    per 100 g of the first cheapest of them. *)
Definition shows_cheapest (ds : list Deal) (s : Slot) : Prop :=
  match ds with
  | [] => s = mkSlot None None false
  | _ => ∃ d v, first_cheapest ds d v
                ∧ slot_price s = Some (deal_price d)
                ∧ slot_per_100g s = Some (Some v)
  end.

(** The slots of a row once the deals [seen] of its group have been
    read: a slot for each of the three platforms and for no other key, each
    showing the first cheapest deal of its platform. *)
Definition slots_show (seen : list Deal) (m : gmap string Slot) : Prop :=
  (∀ p, p ∈ platforms →
        ∃ s, m !! p = Some s ∧ shows_cheapest (on_platform seen p) s)
  ∧ (∀ p, p ∉ platforms → m !! p = None).

(** Every deal carries a price per 100 g that is a number. *)
Definition priced_deals (deals_df : list Deal) : Prop :=
  ∀ d, d ∈ deals_df → is_Some (deal_price_per_100g d).

End Reports.

(* ================================================================== *)
(** * A page and a file the statements are run on *)
(* ================================================================== *)

Module Samples.
Import Text Frame Analyser Extractor Labels Reports Scenario.

(** Three product elements: a loaf with all its texts, an element without
    a name element, and a product that is no bread. *)
Definition page : list Element :=
  [ mkElement (Some "Britannia Brown Bread") (Some "₹45 ₹50") None
              (Some "1 pack (400 g)");
    mkElement None (Some "₹30") None (Some "200 g");
    mkElement (Some "Amul Butter") (Some "₹58") (Some "Amul")
              (Some "100 g") ].

(** What the Zepto scraper makes of the loaf. *)
Definition loaf : Scraped :=
  {| s_name := "Brown Bread"; s_brand := "Britannia";
     s_weight := Scraper.normalize_weight "1 pack (400 g)";
     s_price := Scraper.clean_price "₹45 ₹50";
     s_platform := "zepto" |}.

(** The row of the loaf in the frame built from the scrapers' lists. *)
Definition loaf_row : Row :=
  {| name := Some "Brown Bread"; brand := Some "Britannia";
     weight := Some (s_weight loaf); price := Some (s_price loaf);
     platform := "zepto";
     price_per_100g := per_100g (Some (s_price loaf))
                                (Some (s_weight loaf)) |}.


(** Two listings of one bread, spelled differently and sold in different
    sizes. *)
Definition listing_a : Row :=
  {| name := Some "Brown Bread"; brand := Some "Britannia";
     weight := Some (Q2Qc (400 # 1)); price := Some (Q2Qc (45 # 1));
     platform := "blinkit"; price_per_100g := Some (Q2Qc (1125 # 100)) |}.

Definition listing_b : Row :=
  {| name := Some "BROWN BREAD"; brand := Some " britannia";
     weight := Some (Q2Qc (800 # 1)); price := Some (Q2Qc (80 # 1));
     platform := "zepto"; price_per_100g := Some (Q2Qc (10 # 1)) |}.

Definition file : list Row := [listing_a; listing_b].

(** The two listings as the matcher returns them. *)
Definition matched_a : GroupedRow :=
  {| keyed := {| base := listing_a; brand_standardized := "Britannia";
                 product_key := "britannia_brown bread" |};
     product_group := Some 0%nat |}.

Definition matched_b : GroupedRow :=
  {| keyed := {| base := listing_b; brand_standardized := "Britannia";
                 product_key := "britannia_brown bread" |};
     product_group := Some 0%nat |}.

(** The insights of the deals of the scenario. *)
Definition insights : Insights :=
  default (mkInsights None None) (generate_insights deals_df).

End Samples.

(* ================================================================== *)
(** * Properties *)
(* ================================================================== *)

Module ScraperFacts.
Import Text Scraper.

Lemma prefix_cons (a b : ascii) (p s : string) :
  String.prefix (String a p) (String b s) = true
  ↔ a = b ∧ String.prefix p s = true.
Proof.
  simpl. destruct (ascii_dec a b) as [->|Hne]; split; intros H; try done.
  - by destruct H.
  - by destruct H.
Qed.

Lemma contains_cons (sub : string) (c : ascii) (s : string) :
  contains sub (String c s) = String.prefix sub (String c s) || contains sub s.
Proof. reflexivity. Qed.

Lemma contains_kg_g (t : string) :
  contains "kg" t = true → contains "g" t = true.
Proof.
  induction t as [|c t IH]; [done|].
  rewrite !contains_cons. intros H.
  apply orb_true_iff in H as [H|H]; apply orb_true_iff; right.
  - apply prefix_cons in H as [_ H].
    destruct t as [|d t]; [done|].
    rewrite contains_cons. apply orb_true_iff. left.
    apply prefix_cons in H as [<- _]. apply prefix_cons. split; [done|].
    by destruct t.
  - by apply IH.
Qed.

Lemma detect_unit_cases (text : string) :
  detect_unit text = "g" ∨ detect_unit text = "ml" ∨ detect_unit text = "".
Proof.
  unfold detect_unit.
  destruct (contains "g" text) eqn:Hg; [by left|].
  destruct (contains "kg" text) eqn:Hkg.
  - apply contains_kg_g in Hkg. congruence.
  - destruct (contains "ml" text); auto.
Qed.


(** C2 (the code departs from the claim).  The unit test of
    [_normalize_weight] asks for the letter g first, and every text that
    contains kg contains g: the unit is never kg, no weight is ever
    multiplied by 1000, and [_normalize_weight("1 kg")] is [1.0] where the
    rule of the specification gives [1000.0]. *)
Theorem normalize_weight_kg_shadowed :
  (∀ text, detect_unit text ≠ "kg")
  ∧ detect_unit "1 kg" = "g"
  ∧ normalize_weight "1 kg" = Q2Qc (1 # 1)
  ∧ normalize_weight "1.5 kg" = Q2Qc (3 # 2)
  ∧ spec_normalize_weight "1 kg" = Q2Qc (1000 # 1)
  ∧ normalize_weight "1 kg" ≠ Q2Qc (1000 # 1).
Proof.
  split; [|split; [|split; [|split; [|split]]]].
  - intros text H. by destruct (detect_unit_cases text) as [E | [E | E]];
      rewrite E in H.
  - reflexivity.
  - apply Qc_is_canon. reflexivity.
  - apply Qc_is_canon. reflexivity.
  - apply Qc_is_canon. reflexivity.
  - intros H. apply (f_equal this) in H. vm_compute in H. discriminate H.
Qed.




End ScraperFacts.

Module PriceFacts.
Import Text Scraper.













End PriceFacts.

Module FrameFacts.
Import Frame.

Section UniqueFacts.
Context {A : Type} `{EqDecision A}.
Implicit Types (l seen : list A) (x : A).

Lemma elem_of_unique_from seen l x :
  x ∈ unique_from seen l ↔ x ∈ l ∧ x ∉ seen.
Proof.
  revert seen. induction l as [|y l IH]; intros seen; simpl.
  - split; [by intros ?%elem_of_nil | by intros [?%elem_of_nil _]].
  - case_bool_decide as Hy.
    + rewrite IH, elem_of_cons. split; [tauto|].
      intros [[-> | ?] ?]; done.
    + rewrite elem_of_cons, IH, !elem_of_cons. split.
      * intros [-> | [Hx Hs]]; [by auto|]. split; [by right|]. tauto.
      * intros [Hx Hs]. destruct (decide (x = y)) as [->|Hne]; [by left|].
        right. split; [|tauto]. by destruct Hx.
Qed.

Lemma elem_of_unique l x : x ∈ unique l ↔ x ∈ l.
Proof.
  unfold unique. rewrite elem_of_unique_from. split; [tauto|].
  intros ?. split; [done|]. apply not_elem_of_nil.
Qed.

Lemma NoDup_unique_from seen l : NoDup (unique_from seen l).
Proof.
  revert seen. induction l as [|y l IH]; intros seen; simpl.
  - constructor.
  - case_bool_decide; [done|]. constructor; [|done].
    rewrite elem_of_unique_from, elem_of_cons. intros [_ Hn]. apply Hn. by left.
Qed.

Lemma NoDup_unique l : NoDup (unique l).
Proof. apply NoDup_unique_from. Qed.
End UniqueFacts.

Lemma elem_of_filter_bool {A} (f : A → bool) (l : list A) (x : A) :
  x ∈ List.filter f l ↔ x ∈ l ∧ f x = true.
Proof. rewrite !list_elem_of_In. apply filter_In. Qed.

Lemma elem_of_flat_map {A B} (f : A → list B) (l : list A) (y : B) :
  y ∈ flat_map f l ↔ ∃ x, x ∈ l ∧ y ∈ f x.
Proof.
  rewrite list_elem_of_In, in_flat_map. 
  split; intros (x & ? & ?); exists x; by rewrite ?list_elem_of_In in *.
Qed.

(** [Series.min()] of a column without missing values. *)
Lemma series_min_spec (l : list num) :
  l ≠ [] → (∀ x, x ∈ l → is_Some x) →
  ∃ m, series_min l = Some m ∧ Some m ∈ l
       ∧ ∀ v, Some v ∈ l → (m ≤ v)%Qc.
Proof.
  induction l as [|x l IH]; [done|]. intros _ Hall.
  destruct (Hall x) as [v ->]; [by left|].
  destruct l as [|y l].
  - exists v. simpl. split; [done|]. split; [by left|].
    intros w [[= ->] | ?%elem_of_nil]%elem_of_cons; [|done]. apply Qcle_refl.
  - destruct IH as (m & Hm & Hin & Hle); [done| |].
    { intros z Hz. apply Hall. by right. }
    change (series_min (Some v :: y :: l)) with
      (match series_min (y :: l) with
       | Some m => Some (if bool_decide (v ≤ m)%Qc then v else m)
       | None => Some v
       end).
    rewrite Hm. case_bool_decide as Hvm.
    + exists v. split; [done|]. split; [by left|].
      intros w [[= ->] | Hw]%elem_of_cons; [apply Qcle_refl|].
      eapply Qcle_trans; [exact Hvm|]. by apply Hle.
    + exists m. split; [done|]. split; [by right|].
      intros w [[= ->] | Hw]%elem_of_cons; [|by apply Hle].
      apply Qclt_le_weak. by apply Qcnot_le_lt.
Qed.

End FrameFacts.

Module DealFacts.
Import Text Frame Analyser FrameFacts.

Lemma group_is_None (g : option nat) : group_is None g = false.
Proof. done. Qed.

Lemma group_is_Some (a : nat) (g : option nat) :
  group_is (Some a) g = true ↔ g = Some a.
Proof.
  destruct g as [b|]; simpl; [|done].
  rewrite Nat.eqb_eq. naive_solver.
Qed.

Lemma filter_none {A} (f : A → bool) (l : list A) :
  (∀ x, x ∈ l → f x = false) → List.filter f l = [].
Proof.
  induction l as [|x l IH]; intros H; simpl; [done|].
  rewrite (H x); [|by left]. apply IH. intros y Hy. apply H. by right.
Qed.

Lemma group_deals_None (df : list GroupedRow) : group_deals df None = [].
Proof.
  unfold group_deals. simpl.
  by rewrite (filter_false df).
Qed.

Lemma flat_map_if {A B} (c : A → bool) (f : A → B) (l : list A) :
  flat_map (λ x, if c x then [] else [f x]) l
  = map f (List.filter (λ x, negb (c x)) l).
Proof.
  induction l as [|x l IH]; simpl; [done|].
  destruct (c x); simpl; by rewrite IH.
Qed.

(** The deals of one group, the two guards spelled out. *)
Lemma group_deals_Some (df : list GroupedRow) (g : nat) :
  group_deals df (Some g) =
  if (nunique (map (λ r : GroupedRow, platform r) (group_rows df g)) <? 2)%nat
  then []
  else if (length (available (group_rows df g)) <? 2)%nat then []
  else map (make_deal (Some g) (min_price (group_rows df g)))
           (priced (group_rows df g)).
Proof.
  unfold group_deals. fold (group_rows df g).
  destruct (_ <? 2)%nat; [done|].
  fold (available (group_rows df g)).
  destruct (_ <? 2)%nat; [done|].
  apply flat_map_if.
Qed.

Lemma group_deals_group (df : list GroupedRow) (gid : option nat) (d : Deal) :
  d ∈ group_deals df gid → ∃ g, gid = Some g ∧ deal_product_group d = Some g.
Proof.
  destruct gid as [g|]; [|by rewrite group_deals_None; intros ?%elem_of_nil].
  rewrite group_deals_Some.
  repeat (destruct (_ <? 2)%nat; [by intros ?%elem_of_nil|]).
  intros (r & -> & _)%list_elem_of_fmap. by exists g.
Qed.

Lemma elem_of_identify (df : list GroupedRow) (d : Deal) :
  d ∈ identify_best_deals df ↔
  ∃ g, Some g ∈ map product_group df ∧ d ∈ group_deals df (Some g).
Proof.
  unfold identify_best_deals. rewrite elem_of_flat_map. split.
  - intros (gid & Hgid & Hd).
    destruct (group_deals_group _ _ _ Hd) as (g & -> & _).
    exists g. by rewrite elem_of_unique in Hgid.
  - intros (g & Hg & Hd). exists (Some g). by rewrite elem_of_unique.
Qed.

Lemma group_rows_nonempty (df : list GroupedRow) (g : nat) (r : GroupedRow) :
  r ∈ group_rows df g → Some g ∈ map product_group df.
Proof.
  unfold group_rows. rewrite elem_of_filter_bool, group_is_Some.
  intros [Hr <-]. apply list_elem_of_fmap. by exists r.
Qed.

(** The minimum over the positively priced rows of a group that has any. *)
Lemma min_price_spec (rows : list GroupedRow) :
  available rows ≠ [] →
  ∃ m, min_price rows = Some m ∧ (0 < m)%Qc
       ∧ (∃ r : GroupedRow, r ∈ rows ∧ price_per_100g r = Some m)
       ∧ ∀ (r : GroupedRow) p, r ∈ rows → price_per_100g r = Some p →
           (0 < p)%Qc → (m ≤ p)%Qc.
Proof.
  intros Hne. unfold min_price.
  destruct (series_min_spec
              (map (λ r : GroupedRow, price_per_100g r) (available rows)))
    as (m & Hm & Hin & Hle).
  - by destruct (available rows).
  - intros x (r & -> & Hr)%list_elem_of_fmap.
    apply elem_of_filter_bool in Hr as [_ Hr].
    destruct (price_per_100g r); [by eexists | done].
  - exists m. split; [done|].
    apply list_elem_of_fmap in Hin as (r & Hrm & Hr).
    apply elem_of_filter_bool in Hr as [Hr Hpos].
    rewrite <- Hrm in Hpos. simpl in Hpos. apply bool_decide_eq_true in Hpos.
    split; [done|]. split; [by exists r|].
    intros r' p Hr' Hp Hppos. apply Hle.
    apply list_elem_of_fmap. exists r'. split; [done|].
    apply elem_of_filter_bool. split; [done|].
    rewrite Hp. simpl. by apply bool_decide_eq_true.
Qed.

Lemma flat_map_filter_nodup {A B} `{EqDecision A} (f : A → list B)
    (key : B → A) (l : list A) (a : A) :
  NoDup l → (∀ x y, y ∈ f x → key y = x) →
  List.filter (λ y, bool_decide (key y = a)) (flat_map f l)
  = if bool_decide (a ∈ l) then f a else [].
Proof.
  intros Hnd Hkey. induction Hnd as [|x l Hx Hnd IH]; [done|].
  simpl. rewrite List.filter_app, IH.
  destruct (decide (x = a)) as [->|Hne].
  - rewrite (bool_decide_eq_true_2 (a ∈ a :: l)); [|by left].
    rewrite (bool_decide_eq_false_2 (a ∈ l)); [|done].
    rewrite app_nil_r. apply forallb_filter_id, forallb_forall.
    intros y Hy%list_elem_of_In. apply bool_decide_eq_true. by apply Hkey.
  - assert (List.filter (λ y, bool_decide (key y = a)) (f x) = []) as ->.
    { apply filter_none. intros y Hy. apply bool_decide_eq_false.
      by rewrite (Hkey x y Hy). }
    simpl. apply (f_equal (λ b : bool, if b then f a else [])).
    apply bool_decide_ext. rewrite elem_of_cons.
    split; [by right | by intros [-> | ?]].
Qed.

(** The deals [identify_best_deals] emits for group [g]. *)
Lemma deals_of_group (df : list GroupedRow) (g : nat) :
  List.filter (λ d, bool_decide (deal_product_group d = Some g))
              (identify_best_deals df)
  = group_deals df (Some g).
Proof.
  unfold identify_best_deals.
  rewrite (flat_map_filter_nodup (group_deals df) deal_product_group).
  - case_bool_decide as Hin; [done|].
    rewrite group_deals_Some.
    destruct (group_rows df g) as [|r rows] eqn:E; [done|]. exfalso.
    apply Hin, elem_of_unique, (group_rows_nonempty df g r).
    rewrite E. by left.
  - apply NoDup_unique.
  - intros gid d Hd. by destruct (group_deals_group _ _ _ Hd) as (? & -> & ->).
Qed.

(** C5.  A group with fewer than two distinct platforms, or with fewer
    than two positively priced rows, has no deal in the output; neither has
    a row without a group id.  For every other group the output holds one
    deal per row whose price per 100 g is not zero, in the order of the
    rows, and none for the rows priced zero.  [identify_best_deals] is a
    total function: nothing is raised. *)
Theorem small_groups_have_no_deals (df : list GroupedRow) :
  (∀ g,
     (nunique (map (λ r : GroupedRow, platform r) (group_rows df g)) < 2
      ∨ length (available (group_rows df g)) < 2)%nat →
     ∀ d, d ∈ identify_best_deals df → deal_product_group d ≠ Some g)
  ∧ (∀ g,
       (2 ≤ nunique (map (λ r : GroupedRow, platform r) (group_rows df g)))%nat →
       (2 ≤ length (available (group_rows df g)))%nat →
       List.filter (λ d, bool_decide (deal_product_group d = Some g))
                   (identify_best_deals df)
       = map (make_deal (Some g) (min_price (group_rows df g)))
             (priced (group_rows df g)))
  ∧ (∀ d, d ∈ identify_best_deals df →
       is_Some (deal_product_group d)
       ∧ deal_price_per_100g d ≠ Some 0%Qc).
Proof.
  split; [|split].
  - intros g Hsmall d Hd Hg.
    assert (d ∈ group_deals df (Some g)) as Hin.
    { rewrite <- deals_of_group. apply elem_of_filter_bool.
      split; [done|]. by apply bool_decide_eq_true. }
    rewrite group_deals_Some in Hin.
    destruct Hsmall as [H|H].
    + apply Nat.ltb_lt in H. rewrite H in Hin. by apply elem_of_nil in Hin.
    + apply Nat.ltb_lt in H. rewrite H in Hin.
      by destruct (nunique _ <? 2)%nat; apply elem_of_nil in Hin.
  - intros g H1 H2. rewrite deals_of_group, group_deals_Some.
    apply Nat.ltb_ge in H1, H2. by rewrite H1, H2.
  - intros d (g & _ & Hd)%elem_of_identify.
    rewrite group_deals_Some in Hd.
    repeat (destruct (_ <? 2)%nat; [by apply elem_of_nil in Hd|]).
    apply list_elem_of_fmap in Hd as (r & -> & Hr).
    apply elem_of_filter_bool in Hr as [_ Hr]. simpl.
    split; [by eexists|]. intros E. rewrite E in Hr. unfold num_eq in Hr.
    by rewrite bool_decide_eq_true_2 in Hr.
Qed.

Lemma Qc_sub_nonneg (p m : Qc) : (m ≤ p)%Qc → (0 ≤ p - m)%Qc.
Proof. intros H. by apply Qcle_minus_iff in H. Qed.

Lemma Qc_sub_eq_0 (p m : Qc) : (p - m)%Qc = 0%Qc ↔ p = m.
Proof.
  split; [|intros ->; ring].
  intros H. rewrite <- (Qcplus_0_l m), <- H. ring.
Qed.

(** The deal made from a priced row of a group that passed both guards. *)
Lemma make_deal_savings (gid : option nat) (m p : Qc) (r : GroupedRow) :
  price_per_100g r = Some p → (m ≤ p)%Qc →
  ∃ s, savings_opportunity (make_deal gid (Some m) r) = Some s
       ∧ (0 ≤ s)%Qc
       ∧ (s = 0%Qc ↔ is_best_deal (make_deal gid (Some m) r) = true).
Proof.
  intros Hp Hle. simpl. rewrite Hp. simpl.
  case_bool_decide as Hpm; simpl.
  - exists 0%Qc. split; [done|]. split; [apply Qcle_refl | done].
  - exists (p - m)%Qc. split; [done|]. split; [by apply Qc_sub_nonneg|].
    rewrite Qc_sub_eq_0. split; [done | discriminate].
Qed.

Lemma group_deals_elem (df : list GroupedRow) (g : nat) (d : Deal) :
  d ∈ group_deals df (Some g) →
  available (group_rows df g) ≠ []
  ∧ ∃ r : GroupedRow, r ∈ group_rows df g
      ∧ num_eq (price_per_100g r) (Some 0%Qc) = false
      ∧ d = make_deal (Some g) (min_price (group_rows df g)) r.
Proof.
  rewrite group_deals_Some.
  destruct (nunique _ <? 2)%nat; [by intros ?%elem_of_nil|].
  destruct (length _ <? 2)%nat eqn:Hlen; [by intros ?%elem_of_nil|].
  intros (r & -> & Hr)%list_elem_of_fmap.
  apply elem_of_filter_bool in Hr as [Hr Hnz]. split.
  - intros E. by rewrite E in Hlen.
  - exists r. split; [done|]. split; [|done]. by apply negb_true_iff.
Qed.


End DealFacts.


Module TableFacts.
Import Text Frame Analyser FrameFacts.

(** The running minimum either never moves, or ends on the first deal that
    attains the least price, which is then below the starting bound. *)
Lemma best_fold_spec (group : list Deal) (acc : option Qc * option string) :
  (foldl best_step acc group = acc
   ∧ ∀ e w, e ∈ group → deal_price_per_100g e = Some w →
       ∃ b, fst acc = Some b ∧ (b ≤ w)%Qc)
  ∨ (∃ pre d post v,
       group = (pre ++ d :: post)%list
       ∧ foldl best_step acc group = (Some v, Some (deal_platform d))
       ∧ deal_price_per_100g d = Some v
       ∧ (∀ e w, e ∈ pre → deal_price_per_100g e = Some w → (v < w)%Qc)
       ∧ (∀ e w, e ∈ post → deal_price_per_100g e = Some w → (v ≤ w)%Qc)
       ∧ (∀ b, fst acc = Some b → (v < b)%Qc)).
Proof.
  revert acc. induction group as [|d rest IH]; intros acc.
  { left. split; [done|]. by intros e w ?%elem_of_nil. }
  simpl foldl.
  destruct (deal_price_per_100g d) as [v|] eqn:Hv.
  - (* a priced deal *)
    assert (best_step acc d = (Some v, Some (deal_platform d))
            ∧ (∀ b, fst acc = Some b → (v < b)%Qc)
            ∨ best_step acc d = acc ∧ ∃ b, fst acc = Some b ∧ (b ≤ v)%Qc)
      as [[Hstep Hlt] | [Hstep (b & Hb & Hbv)]].
    { unfold best_step. rewrite Hv. destruct (fst acc) as [b|] eqn:Hb.
      - case_bool_decide as Hvb.
        + left. split; [done|]. by intros ? [= <-].
        + right. split; [done|]. exists b. split; [done|].
          by apply Qcnot_lt_le.
      - left. split; [done|]. by intros. }
    + rewrite Hstep.
      destruct (IH (Some v, Some (deal_platform d)))
        as [[Hres Hall]
           | (pre & d' & post & v' & -> & Hres & Hv' & Hpre & Hpost & Hb)].
      * right. exists [], d, rest, v. repeat split; try done.
        -- by intros e w ?%elem_of_nil.
        -- intros e w He Hw. destruct (Hall e w He Hw) as (b & [= <-] & ?).
           done.
      * right. exists (d :: pre), d', post, v'. repeat split; try done.
        -- intros e w [-> | He]%elem_of_cons Hw; [|by eapply Hpre].
           rewrite Hv in Hw. injection Hw as <-. by apply Hb.
        -- intros b Hb'. eapply Qclt_trans; [by apply Hb|]. by apply Hlt.
    + rewrite Hstep.
      destruct (IH acc)
        as [[Hres Hall]
           | (pre & d' & post & v' & -> & Hres & Hv' & Hpre & Hpost & Hlt)].
      * left. split; [done|].
        intros e w [-> | He]%elem_of_cons Hw; [|by eapply Hall].
        rewrite Hv in Hw. injection Hw as <-. by exists b.
      * right. exists (d :: pre), d', post, v'. repeat split; try done.
        intros e w [-> | He]%elem_of_cons Hw; [|by eapply Hpre].
        rewrite Hv in Hw. injection Hw as <-.
        eapply Qclt_le_trans; [by apply Hlt | done].
  - (* a deal whose price is missing never moves the minimum *)
    assert (best_step acc d = acc) as -> by (unfold best_step; by rewrite Hv).
    destruct (IH acc)
      as [[Hres Hall]
         | (pre & d' & post & v' & -> & Hres & Hv' & Hpre & Hpost & Hlt)].
    + left. split; [done|].
      intros e w [-> | He]%elem_of_cons Hw; [congruence | by eapply Hall].
    + right. exists (d :: pre), d', post, v'. repeat split; try done.
      intros e w [-> | He]%elem_of_cons Hw; [congruence | by eapply Hpre].
Qed.





Lemma populate_step_prices (comparable : bool) (best : option string)
    (group : list Deal) (m m' : gmap string Slot) (d : Deal) :
  d ∈ group → prices_from group m →
  populate_step comparable best m d = Some m' → prices_from group m'.
Proof.
  intros Hd Hm. unfold populate_step.
  destruct (m !! deal_platform d) as [slot|] eqn:Hslot; [|done]. simpl.
  intros [= <-] p s x. rewrite lookup_insert. case_decide as Hp; [|apply Hm].
  subst p. intros [= <-] Hx.
  assert (slot_price
            match slot_per_100g slot with
            | Some cur =>
                if num_lt (deal_price_per_100g d) cur
                then mkSlot (Some (deal_price d))
                       (Some (deal_price_per_100g d)) (slot_is_best slot)
                else slot
            | None =>
                mkSlot (Some (deal_price d))
                  (Some (deal_price_per_100g d)) (slot_is_best slot)
            end = Some x) as Hx1.
  { by destruct (comparable && _). }
  clear Hx. destruct (slot_per_100g slot) as [cur|].
  - destruct (num_lt _ cur).
    + injection Hx1 as <-. by exists d.
    + by apply (Hm _ slot).
  - injection Hx1 as <-. by exists d.
Qed.

Lemma populate_prices (comparable : bool) (best : option string)
    (group rest : list Deal) (m m' : gmap string Slot) :
  (∀ d, d ∈ rest → d ∈ group) → prices_from group m →
  populate comparable best m rest = Some m' → prices_from group m'.
Proof.
  revert m. induction rest as [|d rest IH]; intros m Hsub Hm; simpl.
  - by intros [= <-].
  - destruct (populate_step comparable best m d) as [m1|] eqn:E; [|done].
    simpl. apply IH.
    + intros e He. apply Hsub. by right.
    + eapply populate_step_prices; [|done..]. apply Hsub. by left.
Qed.

Lemma initial_slots_no_price (group : list Deal) :
  prices_from group initial_slots.
Proof.
  intros p s x. unfold initial_slots, platforms. simpl.
  rewrite !lookup_insert. repeat case_decide; naive_solver.
Qed.

(** What [comparison_row] computes, read off its result. *)
Lemma comparison_row_Some (deals_df : list Deal) (gid : option nat)
    (row : ComparisonRow) :
  comparison_row deals_df gid = Some row →
  let group := group_of deals_df gid in
  let comparable := (2 <=? nunique (map deal_platform group))%nat in
  representative (map deal_name group) = Some (product_name row)
  ∧ representative (map (λ d, Some (deal_brand d)) group)
    = Some (row_brand row)
  ∧ is_comparable row = comparable
  ∧ platforms_available row = nunique (map deal_platform group)
  ∧ populate comparable (best_deal_platform comparable group)
             initial_slots group = Some (slots row).
Proof.
  unfold comparison_row. fold (group_of deals_df gid).
  destruct (representative (map deal_name _)) as [nm|]; [|done]. simpl.
  destruct (representative (map _ _)) as [br|]; [|done]. simpl.
  destruct (populate _ _ _ _) as [sl|]; [|done]. simpl.
  by intros [= <-].
Qed.

Lemma table_rows (deals_df : list Deal) (rows : list ComparisonRow) :
  create_comparison_table deals_df = Some rows →
  Forall2 (λ gid row, comparison_row deals_df gid = Some row)
          (unique (map deal_product_group deals_df)) rows.
Proof.
  unfold create_comparison_table. destruct deals_df as [|d l]; [done|].
  apply mapM_Some.
Qed.

(** Every price a row of the table shows is the price of a deal. *)
Lemma table_prices (deals_df : list Deal) (rows : list ComparisonRow)
    (row : ComparisonRow) (p : string) (s : Slot) (x : num) :
  create_comparison_table deals_df = Some rows → row ∈ rows →
  slots row !! p = Some s → slot_price s = Some x →
  ∃ d, d ∈ deals_df ∧ deal_platform d = p ∧ deal_price d = x.
Proof.
  intros Htable [i Hi]%list_elem_of_lookup Hs Hx.
  destruct (Forall2_lookup_r _ _ _ _ _ (table_rows _ _ Htable) Hi)
    as (gid & _ & Hrow).
  destruct (comparison_row_Some _ _ _ Hrow) as (_ & _ & _ & _ & Hpop).
  destruct (populate_prices _ _ (group_of deals_df gid) _ _ _
              (λ d Hd, Hd) (initial_slots_no_price _) Hpop p s x Hs Hx)
    as (d & Hd & Hdp & Hdx).
  exists d. split; [|done]. by apply elem_of_filter_bool in Hd as [? _].
Qed.


End TableFacts.

Module LoadFacts.
Import Text Frame Analyser FrameFacts DealFacts TableFacts.

Lemma keep_row_valid (r : Row) : keep_row r = true ↔ valid_row r.
Proof.
  unfold keep_row, valid_row, num_pos, num_ge.
  rewrite !andb_true_iff, !bool_decide_eq_true. split.
  - intros [[[Hn _] Hp] Hw]. split; [done|].
    destruct (price r) as [p|]; [|done].
    destruct (weight r) as [w|]; [|done].
    apply bool_decide_eq_true in Hp, Hw. split; by eexists.
  - intros (Hn & (p & -> & Hp) & (w & -> & Hw)).
    rewrite !bool_decide_eq_true. by repeat split.
Qed.

Lemma round_half_even_nonneg (n : Z) (d : positive) :
  (0 ≤ n)%Z → (0 ≤ round_half_even n d)%Z.
Proof.
  intros Hn. unfold round_half_even.
  assert (0 ≤ n / Z.pos d)%Z by (apply Z.div_pos; lia).
  repeat (destruct (_ <? _)%Z); [lia..|]. destruct (Z.even _); lia.
Qed.

Lemma round2_nonneg (x : Qc) : (0 ≤ x)%Qc → (0 ≤ round2 x)%Qc.
Proof.
  intros Hx. unfold round2, Qcle. simpl this.
  rewrite !Qred_correct. unfold Qle. simpl.
  assert (0 ≤ Qnum (this x))%Z as Hnum.
  { unfold Qcle, Qle in Hx. simpl in Hx. lia. }
  pose proof (round_half_even_nonneg (Qnum (this x) * 100)
                (Qden (this x) * 1)) as H.
  lia.
Qed.

Lemma per_100g_nonneg (p w : Qc) :
  (0 < p)%Qc → (Q2Qc (100 # 1) ≤ w)%Qc →
  ∃ v, per_100g (Some p) (Some w) = Some v ∧ (0 ≤ v)%Qc.
Proof.
  intros Hp Hw.
  assert (0 < w)%Qc as Hw0.
  { eapply Qclt_le_trans; [|exact Hw]. done. }
  unfold per_100g. simpl. rewrite bool_decide_eq_false_2.
  - eexists. split; [done|]. apply round2_nonneg.
    apply Qcmult_nonneg_nonneg; [|done].
    apply Qcmult_nonneg_nonneg; [by apply Qclt_le_weak|].
    by apply Qclt_le_weak, Qcinv_pos.
  - intros ->. by apply (Qcle_not_lt 0 0) in Hw0.
Qed.

Section Stages.
Variable standardize_brand : option string → string.
Variable create_product_key : Row → string → string.
Variable scorer : string → string → nat.

Lemma elem_of_load (csv : list Row) (r : KeyedRow) :
  r ∈ load_and_preprocess standardize_brand create_product_key csv →
  keep_row r = true
  ∧ ∃ r0, r0 ∈ csv ∧ base r = set_name (clean_name (name r0)) r0.
Proof.
  unfold load_and_preprocess.
  intros (r1 & -> & Hr1)%list_elem_of_fmap. simpl.
  apply elem_of_filter_bool in Hr1 as [Hr1 Hk]. split; [done|].
  apply list_elem_of_fmap in Hr1 as (r0 & -> & Hr0). by exists r0.
Qed.

Lemma elem_of_fuzzy (df : list KeyedRow) (threshold : nat) (r : GroupedRow) :
  r ∈ fuzzy_match_products scorer df threshold → keyed r ∈ df.
Proof.
  unfold fuzzy_match_products. by intros (k & -> & Hk)%list_elem_of_fmap.
Qed.

Lemma elem_of_matched (csv : list Row) (r : GroupedRow) :
  r ∈ matched standardize_brand create_product_key scorer csv →
  valid_row r
  ∧ ∃ r0, r0 ∈ csv ∧ base r = set_name (clean_name (name r0)) r0.
Proof.
  intros Hr%elem_of_fuzzy. apply elem_of_load in Hr as [Hk Hr].
  split; [by apply keep_row_valid | done].
Qed.

(** The frame the matcher hands to the deal identifier carries
    non-negative normalized prices. *)
Lemma matched_prices_nonneg (products : list Product) :
  prices_nonneg
    (matched standardize_brand create_product_key scorer
             (convert_to_dataframe products)).
Proof.
  intros r (Hv & r0 & Hr0 & E)%elem_of_matched.
  apply list_elem_of_fmap in Hr0 as (p & -> & _).
  destruct Hv as (_ & (v & Hv & Hv0) & (w & Hw & Hw100)).
  rewrite E in Hv, Hw |- *. simpl in *. rewrite Hv, Hw.
  by apply per_100g_nonneg.
Qed.
End Stages.

(** C6.  Every row [load_and_preprocess] returns has a name, a price above
    zero and a weight of at least 100, and is a row of the file; a row of
    the file that fails one of the three is not returned.  Downstream,
    every row the matcher returns has the three properties, every deal
    carries the name, price and weight of such a row, and every price the
    comparison table shows is a price above zero.  The insights are
    aggregates of the deals alone. *)
Theorem preprocess_drops_invalid_rows
    (standardize_brand : option string → string)
    (create_product_key : Row → string → string)
    (scorer : string → string → nat) (csv : list Row) :
  (∀ r : KeyedRow,
     r ∈ load_and_preprocess standardize_brand create_product_key csv →
     valid_row r
     ∧ ∃ r0, r0 ∈ csv ∧ base r = set_name (clean_name (name r0)) r0)
  ∧ (∀ r0, r0 ∈ csv → ¬ valid_row (set_name (clean_name (name r0)) r0) →
       ∀ r : KeyedRow,
         r ∈ load_and_preprocess standardize_brand create_product_key csv →
         base r ≠ set_name (clean_name (name r0)) r0)
  ∧ (∀ r : GroupedRow,
       r ∈ matched standardize_brand create_product_key scorer csv →
       valid_row r)
  ∧ (∀ d, d ∈ deals standardize_brand create_product_key scorer csv →
       valid_deal d)
  ∧ (∀ rows row p s x,
       comparison_table standardize_brand create_product_key scorer csv
       = Some rows →
       row ∈ rows → slots row !! p = Some s → slot_price s = Some x →
       ∃ v, x = Some v ∧ (0 < v)%Qc).
Proof.
  assert (∀ d, d ∈ deals standardize_brand create_product_key scorer csv →
               valid_deal d) as Hdeals.
  { intros d (g & _ & Hd)%elem_of_identify.
    apply group_deals_elem in Hd as (_ & r & Hr & _ & ->).
    apply elem_of_filter_bool in Hr as [Hr _].
    by apply elem_of_matched in Hr as [Hv _]. }
  split; [|split; [|split; [|split]]].
  - intros r [Hk Hr]%elem_of_load. split; [by apply keep_row_valid | done].
  - intros r0 _ Hbad r [Hk _]%elem_of_load E. apply Hbad.
    rewrite <- E. by apply keep_row_valid.
  - by intros r [Hv _]%elem_of_matched.
  - exact Hdeals.
  - intros rows row p s x Htable Hrow Hs Hx.
    destruct (table_prices _ _ _ _ _ _ Htable Hrow Hs Hx)
      as (d & Hd & _ & <-).
    by destruct (Hdeals d Hd) as (_ & (v & -> & Hv) & _); exists v.
Qed.

End LoadFacts.

Module ModeFacts.
Import Text Frame Analyser FrameFacts TableFacts Scenario.

Lemma foldr_max_ge {A} (f : A → nat) (l : list A) (v : A) :
  v ∈ l → (f v ≤ foldr Nat.max 0 (map f l))%nat.
Proof.
  induction l as [|x l IH]; [by intros ?%elem_of_nil|].
  intros [-> | Hv]%elem_of_cons; simpl; [lia|]. specialize (IH Hv). lia.
Qed.

Lemma foldr_max_attained {A} (f : A → nat) (l : list A) :
  l ≠ [] → ∃ v, v ∈ l ∧ f v = foldr Nat.max 0 (map f l).
Proof.
  induction l as [|x l IH]; [done|]. intros _.
  destruct l as [|y l].
  - exists x. split; [by left|]. simpl. lia.
  - destruct IH as (v & Hv & E); [done|].
    destruct (decide (foldr Nat.max 0 (map f (y :: l)) ≤ f x)%nat) as [Hle|Hgt].
    + exists x. split; [by left|].
      change (map f (x :: y :: l)) with (f x :: map f (y :: l)).
      simpl foldr. simpl foldr in Hle. lia.
    + exists v. split; [by right|].
      change (map f (x :: y :: l)) with (f x :: map f (y :: l)).
      simpl foldr. simpl foldr in Hgt, E. lia.
Qed.

Lemma occurrences_absent (v : string) (l : list string) :
  v ∉ l → occurrences v l = 0%nat.
Proof.
  intros Hv. unfold occurrences. rewrite DealFacts.filter_none; [done|].
  intros w Hw. apply bool_decide_eq_false. by intros ->.
Qed.

Lemma elem_of_insert_asc (x y : string) (l : list string) :
  y ∈ insert_asc x l ↔ y = x ∨ y ∈ l.
Proof.
  induction l as [|z l IH]; simpl.
  - rewrite list_elem_of_singleton.
    split; [by left | by intros [? | ?%elem_of_nil]].
  - destruct (String.leb x z); rewrite !elem_of_cons; [done|].
    rewrite IH. tauto.
Qed.

Lemma elem_of_sort_asc (y : string) (l : list string) :
  y ∈ sort_asc l ↔ y ∈ l.
Proof.
  induction l as [|x l IH]; simpl; [done|].
  by rewrite elem_of_insert_asc, IH, elem_of_cons.
Qed.

Lemma insert_asc_ascending (x : string) (l : list string) :
  ascending l → ascending (insert_asc x l).
Proof.
  induction l as [|z l IH]; intros Hl; simpl.
  - split; [by intros y ?%elem_of_nil | done].
  - destruct Hl as [Hz Hl]. destruct (String.leb x z) eqn:E.
    + split; [|by split]. intros y [-> | Hy]%elem_of_cons.
      * unfold String.le. by rewrite E.
      * transitivity z; [unfold String.le; by rewrite E | by apply Hz].
    + split; [|by apply IH]. intros y [-> | Hy]%elem_of_insert_asc.
      * destruct (total String.le x z) as [H|H]; [|done].
        unfold String.le in H. by rewrite E in H.
      * by apply Hz.
Qed.

Lemma sort_asc_ascending (l : list string) : ascending (sort_asc l).
Proof.
  induction l as [|x l IH]; simpl; [done|]. by apply insert_asc_ascending.
Qed.

Lemma sort_asc_head (l : list string) :
  l ≠ [] → ∃ n rest, sort_asc l = n :: rest ∧ n ∈ l
                     ∧ ∀ y, y ∈ l → String.le n y.
Proof.
  intros Hne. pose proof (sort_asc_ascending l) as Hs.
  destruct (sort_asc l) as [|n rest] eqn:E.
  - destruct l as [|x l]; [done|].
    assert (x ∈ sort_asc (x :: l)) as Hx by (apply elem_of_sort_asc; by left).
    rewrite E in Hx. by apply elem_of_nil in Hx.
  - exists n, rest. split; [done|].
    assert (∀ y, y ∈ l ↔ y ∈ n :: rest) as Hel.
    { intros y. by rewrite <- E, elem_of_sort_asc. }
    split; [apply Hel; by left|].
    intros y [-> | Hy]%Hel%elem_of_cons; [done|]. by apply Hs.
Qed.

(** [Series.mode()[0]] is the smallest of the most frequent values. *)
Lemma mode_head (col : list string) :
  col ≠ [] → ∃ n rest, mode col = n :: rest ∧ smallest_most_frequent col n.
Proof.
  intros Hne. unfold mode.
  set (cands := List.filter _ (unique col)).
  assert (∀ v, v ∈ cands ↔ v ∈ col ∧ occurrences v col = max_occurrences col)
    as Hc.
  { intros v. unfold cands.
    by rewrite elem_of_filter_bool, elem_of_unique, Nat.eqb_eq. }
  destruct (foldr_max_attained (λ v, occurrences v col) col Hne)
    as (w & Hw & Hmax).
  destruct (sort_asc_head cands) as (n & rest & E & Hn & Hmin).
  { intros E. assert (w ∈ cands) as Hwc by by apply Hc.
    rewrite E in Hwc. by apply elem_of_nil in Hwc. }
  exists n, rest. split; [done|].
  apply Hc in Hn as [Hn Hocc]. split; [done|]. split.
  - intros v. rewrite Hocc. destruct (decide (v ∈ col)) as [Hv|Hv].
    + apply (foldr_max_ge (λ v, occurrences v col) col v Hv).
    + rewrite (occurrences_absent v col Hv). lia.
  - intros v Hv Hvn. apply Hmin, Hc. split; [done|]. by rewrite Hvn.
Qed.

Lemma omap_Some_map {A B} (f : A → B) (l : list A) :
  omap id (map (λ x, Some (f x)) l) = map f l.
Proof. induction l as [|x l IH]; [done|]. csimpl. by f_equal. Qed.

Lemma omap_id_map {A B} (f : A → option B) (l : list A) :
  omap id (map f l) = omap f l.
Proof.
  induction l as [|x l IH]; [done|]. csimpl.
  destruct (f x); simpl; by rewrite IH.
Qed.

Lemma representative_spec (col : list (option string)) (v : option string) :
  representative col = Some v →
  col ≠ []
  ∧ (omap id col ≠ [] →
     ∃ n, v = Some n ∧ smallest_most_frequent (omap id col) n).
Proof.
  unfold representative.
  destruct (decide (omap id col = [])) as [E|Hne].
  - rewrite E. unfold mode. simpl.
    destruct col as [|x col]; [done|]. by intros _.
  - destruct (mode_head _ Hne) as (n & rest & -> & Hn).
    intros [= <-]. split; [by intros ->|]. intros _. by exists n.
Qed.

(** C9, counterexample.  Two listings of one group named
    "Brown Bread (Sliced)" and "Brown Bread", in this order, tie with one
    occurrence each: the first row encountered is "Brown Bread (Sliced)",
    the table shows "Brown Bread", the smaller string. *)
Lemma representative_tie_counterexample :
  spec_representative (omap deal_name tie_deals)
  = Some "Brown Bread (Sliced)"
  ∧ (product_name <$> (create_comparison_table tie_deals ≫= head))
    = Some (Some "Brown Bread")
  ∧ (product_name <$> (create_comparison_table tie_deals ≫= head))
    ≠ Some (spec_representative (omap deal_name tie_deals)).
Proof.
  split; [vm_compute; reflexivity|]. split; [vm_compute; reflexivity|].
  vm_compute. discriminate.
Qed.

(** C9, as amended.  For every row of the table, the product name is the
    most frequent name of the group and the brand its most frequent
    brand; among several most frequent values the smallest string is
    taken, whatever the order of the rows. *)
Theorem representative_is_smallest_mode (deals_df : list Deal)
    (rows : list ComparisonRow) :
  create_comparison_table deals_df = Some rows →
  Forall2 (λ gid row,
      let group := group_of deals_df gid in
      (omap deal_name group ≠ [] →
       ∃ n, product_name row = Some n
            ∧ smallest_most_frequent (omap deal_name group) n)
      ∧ (∃ b, row_brand row = Some b
              ∧ smallest_most_frequent (map deal_brand group) b))
    (unique (map deal_product_group deals_df)) rows.
Proof.
  intros Htable. eapply Forall2_impl; [exact (table_rows _ _ Htable)|].
  intros gid row Hrow. simpl.
  destruct (comparison_row_Some _ _ _ Hrow) as (Hnm & Hbr & _).
  apply representative_spec in Hnm as [Hne Hnm].
  apply representative_spec in Hbr as [_ Hbr].
  rewrite omap_Some_map in Hbr. rewrite omap_id_map in Hnm. split.
  - exact Hnm.
  - apply Hbr. intros E. apply Hne.
    apply fmap_nil_inv in E. by rewrite E.
Qed.

End ModeFacts.

Module FuzzFacts.
Import Text.
Import Fuzz.








End FuzzFacts.

Module MatchFacts.
Import Text Frame Analyser FrameFacts FuzzFacts Scenario.

(** ** Sorting by score and the cut at [limit] *)








(** ** The smallest key of a list *)





Lemma min_str_is_Some (l : list string) : l ≠ [] → is_Some (min_str l).
Proof. destruct l; [done|]. by eexists. Qed.

(** ** The dictionary of groups *)




(** ** The mapping from keys to group ids *)

Lemma assign_group_lookup (m : gmap string nat) (gid : nat)
    (ks : list string) (k : string) :
  assign_group m gid ks !! k
  = if bool_decide (k ∈ ks) then Some gid else m !! k.
Proof.
  unfold assign_group. revert m. induction ks as [|x ks IH]; intros m.
  - by case_bool_decide as H; [apply elem_of_nil in H|].
  - cbn [foldl]. rewrite IH.
    case_bool_decide as Hk; case_bool_decide as Hk'; try done.
    + destruct Hk'. by right.
    + apply elem_of_cons in Hk' as [-> | ?]; [|done].
      by rewrite lookup_insert_eq.
    + rewrite lookup_insert_ne; [done|]. intros ->. apply Hk'. by left.
Qed.

Lemma assign_groups_lookup (groups : list (list string))
    (m : gmap string nat) (start : nat) (k : string) (v : nat) :
  assign_groups m start groups !! k = Some v ↔
  (∃ i, v = (start + i)%nat ∧ last_holding groups k i)
  ∨ ((∀ j ks, groups !! j = Some ks → k ∉ ks) ∧ m !! k = Some v).
Proof.
  revert m start. induction groups as [|ks0 rest IH]; intros m start; simpl.
  - split.
    + intros H. right. split; [|done]. by intros j ks.
    + intros [(i & _ & (ks & Hks & _) & _) | [_ H]]; [done | done].
  - rewrite IH. split.
    + intros [(i & -> & (ks & Hks & Hk) & Hmax) | [Hnone Hm]].
      * left. exists (S i). split; [lia|]. split; [by exists ks|].
        intros [|j] ks' Hks' Hk'; [lia|]. simpl in Hks'.
        specialize (Hmax j ks' Hks' Hk'). lia.
      * rewrite assign_group_lookup in Hm. case_bool_decide as Hk0.
        -- injection Hm as <-. left. exists 0%nat. split; [lia|].
           split; [by exists ks0|].
           intros [|j] ks' Hks' Hk'; [lia|]. simpl in Hks'.
           by destruct (Hnone j ks' Hks').
        -- right. split; [|done].
           intros [|j] ks' Hks'; simpl in Hks'; [by injection Hks' as <-|].
           by apply (Hnone j).
    + intros [(i & -> & (ks & Hks & Hk) & Hmax) | [Hnone Hm]].
      * destruct i as [|i]; simpl in Hks.
        -- injection Hks as ->. right. split.
           ++ intros j ks' Hks' Hk'. specialize (Hmax (S j) ks' Hks' Hk'). lia.
           ++ rewrite assign_group_lookup, bool_decide_eq_true_2; [|done].
              f_equal. lia.
        -- left. exists i. split; [lia|]. split; [by exists ks|].
           intros j ks' Hks' Hk'. specialize (Hmax (S j) ks' Hks' Hk'). lia.
      * right. split; [intros j ks' Hks'; by apply (Hnone (S j))|].
        rewrite assign_group_lookup, bool_decide_eq_false_2; [done|].
        by apply (Hnone 0%nat).
Qed.

(** A key gets the position of the last group whose list holds it. *)
Lemma group_mapping_lookup (pg : list (string * list string)) (k : string)
    (i : nat) :
  group_mapping pg !! k = Some i ↔ last_holding (map snd pg) k i.
Proof.
  unfold group_mapping. rewrite assign_groups_lookup. split.
  - intros [(j & -> & H) | [_ H]]; [done | by rewrite lookup_empty in H].
  - intros H. left. by exists i.
Qed.


(** ** Folding over the distinct keys *)




Section Groups.
Variable scorer : string → string → nat.
Variable threshold : nat.
Variable keys : list string.






End Groups.

(** ** The three parts of the claim on grouping *)


Lemma elem_of_fuzzy_match (scorer : string → string → nat)
    (df : list KeyedRow) (threshold : nat) (r : GroupedRow) :
  r ∈ fuzzy_match_products scorer df threshold →
  keyed r ∈ df
  ∧ product_group r
    = group_mapping
        (build_groups scorer threshold (unique (map product_key df)))
      !! product_key r.
Proof.
  unfold fuzzy_match_products. by intros (k & -> & Hk)%list_elem_of_fmap.
Qed.


End MatchFacts.

Module ScenarioFacts.
Import Text Frame Analyser FrameFacts DealFacts LoadFacts TableFacts ModeFacts
  MatchFacts Scenario.

Lemma table_length (deals : list Deal) (rows : list ComparisonRow) :
  create_comparison_table deals = Some rows →
  length rows = nunique (map deal_product_group deals).
Proof.
  intros H. symmetry. unfold nunique.
  by apply (Forall2_length _ _ _ (table_rows _ _ H)).
Qed.

(** C1 (the code departs from the claim).  [run_analysis.py] hands the
    table builder the deals, from which the single-platform groups are
    already gone.  The matched frame of the scenario has two product
    groups; the loaf sold on one platform has no deal, and the table has
    one row, none for the loaf. *)
Theorem table_omits_single_platform_groups :
  nunique (map product_group df_matched) = 2%nat
  ∧ map deal_product_group deals_df = [Some 0%nat; Some 0%nat]
  ∧ length <$> create_comparison_table deals_df = Some 1%nat
  ∧ map product_name table = [Some "White Bread"]
  ∧ create_comparison_table (identify_best_deals [row_c]) = None.
Proof. repeat split; vm_compute; reflexivity. Qed.

Lemma scenario_prices_nonneg : prices_nonneg df_matched.
Proof.
  intros r Hr. unfold df_matched in Hr.
  repeat (apply elem_of_cons in Hr as [-> | Hr]);
    [| | |by apply elem_of_nil in Hr]; eexists; (split; [reflexivity|done]).
Qed.

Lemma deal_b_emitted : deal_b ∈ deals_df.
Proof. vm_compute. right. left. Qed.


Lemma small_groups_have_no_deals_witness :
  (nunique (map (λ r : GroupedRow, platform r) (group_rows df_matched 1)) < 2)%nat
  ∧ deal_b ∈ identify_best_deals df_matched
  ∧ deal_product_group deal_b ≠ Some 1%nat.
Proof.
  assert (nunique (map (λ r : GroupedRow, platform r)
                       (group_rows df_matched 1)) < 2)%nat as H
    by (vm_compute; lia).
  split; [exact H|]. split; [exact deal_b_emitted|].
  exact (proj1 (small_groups_have_no_deals df_matched) 1%nat (or_introl H)
           deal_b deal_b_emitted).
Defined.

Lemma table_computed : create_comparison_table deals_df = Some table.
Proof. vm_compute. reflexivity. Qed.


Lemma representative_is_smallest_mode_witness :
  create_comparison_table deals_df = Some table
  ∧ Forall2 (λ gid row,
        let group := group_of deals_df gid in
        (omap deal_name group ≠ [] →
         ∃ n, product_name row = Some n
              ∧ smallest_most_frequent (omap deal_name group) n)
        ∧ (∃ b, row_brand row = Some b
                ∧ smallest_most_frequent (map deal_brand group) b))
      (unique (map deal_product_group deals_df)) table.
Proof.
  split; [exact table_computed|].
  exact (representative_is_smallest_mode deals_df table table_computed).
Defined.

Lemma preprocess_drops_invalid_rows_witness :
  let standardize_brand := default "Unknown" in
  let create_product_key := λ (r : Row) (b : string), b in
  let r := {| base := row_b; brand_standardized := "Britannia";
              product_key := "Britannia" |} in
  r ∈ load_and_preprocess standardize_brand create_product_key csv
  ∧ valid_row r.
Proof.
  intros standardize_brand create_product_key r.
  assert (r ∈ load_and_preprocess standardize_brand create_product_key csv)
    as Hr by (vm_compute; right; left).
  split; [exact Hr|].
  exact (proj1 (proj1 (preprocess_drops_invalid_rows standardize_brand
                         create_product_key Fuzz.token_sort_ratio csv)
                  r Hr)).
Defined.


End ScenarioFacts.

Module ExtractFacts.
Import Text Scraper Frame Fuzz Analyser Extractor LoadFacts.

(** ** The normalizers never return a negative number *)








(** ** Blanks and trimming *)






Lemma lstrip_starts (s : string) : starts_with is_space (lstrip s) = false.
Proof.
  induction s as [|c s IH]; [done|].
  simpl. destruct (is_space c) eqn:E; [done|]. simpl. by rewrite E.
Qed.

Lemma lstrip_id (s : string) :
  starts_with is_space s = false → lstrip s = s.
Proof. destruct s as [|c s]; [done|]. simpl. by intros ->. Qed.

Lemma rstrip_starts (s : string) :
  starts_with is_space s = false → starts_with is_space (rstrip s) = false.
Proof.
  destruct s as [|c s]; [done|]. simpl. intros E.
  destruct (rstrip s); simpl; by rewrite E.
Qed.

Lemma rstrip_idem (s : string) : rstrip (rstrip s) = rstrip s.
Proof.
  induction s as [|c s IH]; [done|].
  simpl. destruct (rstrip s) as [|d r] eqn:Hr.
  - destruct (is_space c) eqn:E; [done|]. simpl. by rewrite E.
  - change (rstrip (String c (String d r)) = String c (String d r)).
    cbn [rstrip] in IH |- *.
    by rewrite IH.
Qed.

(** [strip] leaves a trimmed string as it is. *)
Lemma strip_idem (s : string) : strip (strip s) = strip s.
Proof.
  unfold strip. rewrite (lstrip_id (rstrip (lstrip s))).
  - apply rstrip_idem.
  - apply rstrip_starts, lstrip_starts.
Qed.

(** ** [_extract_brand_from_name] *)









(** ** [_is_bread_product] *)

Lemma lower_upper_char (c : ascii) :
  lower_char (Labels.upper_char c) = lower_char c.
Proof. by destruct c as [[] [] [] [] [] [] [] []]. Qed.

Lemma lower_upper (s : string) : lower (Labels.upper s) = lower s.
Proof.
  induction s as [|c s IH]; [done|].
  simpl. by rewrite lower_upper_char, IH.
Qed.

Lemma lower_app (a b : string) : lower (a +:+ b) = lower a +:+ lower b.
Proof. induction a as [|c a IH]; [done|]. simpl. by rewrite IH. Qed.

Lemma prefix_app (sub s b : string) :
  String.prefix sub s = true → String.prefix sub (s +:+ b) = true.
Proof.
  revert s. induction sub as [|a sub IH]; intros s H.
  - by destruct (s +:+ b).
  - destruct s as [|c s]; [done|].
    apply ScraperFacts.prefix_cons in H as [-> H].
    change (String c s +:+ b) with (String c (s +:+ b)).
    apply ScraperFacts.prefix_cons. split; [done|]. by apply IH.
Qed.

Lemma contains_app_l (sub s b : string) :
  contains sub s = true → contains sub (s +:+ b) = true.
Proof.
  induction s as [|c s IH].
  - simpl. rewrite orb_false_r. destruct sub; [|done]. intros _.
    by destruct b.
  - change (String c s +:+ b) with (String c (s +:+ b)).
    rewrite !ScraperFacts.contains_cons.
    intros [H|H]%orb_true_iff; apply orb_true_iff.
    + left. by apply (prefix_app sub (String c s) b).
    + right. by apply IH.
Qed.

Lemma contains_app_r (sub a s : string) :
  contains sub s = true → contains sub (a +:+ s) = true.
Proof.
  intros H. induction a as [|c a IH]; [done|].
  change (String c a +:+ s) with (String c (a +:+ s)).
  rewrite ScraperFacts.contains_cons, IH. apply orb_true_r.
Qed.

(** X4.  [_is_bread_product] is a test for substrings of the lowered name:
    it holds exactly when one of the five keywords occurs somewhere in the
    name, letter case ignored.  So it does not change with the case of the
    name, and a name that passes still passes with any text before and
    after it, also when that text runs into the keyword without a blank. *)
Theorem bread_filter_is_a_substring_test :
  (∀ n, is_bread_product n = true
        ↔ ∃ keyword, keyword ∈ bread_keywords
                     ∧ contains keyword (lower n) = true)
  ∧ (∀ n, is_bread_product (Labels.upper n) = is_bread_product n
          ∧ is_bread_product (lower n) = is_bread_product n)
  ∧ (∀ a n b, is_bread_product n = true →
              is_bread_product (a +:+ n +:+ b) = true).
Proof.
  assert (∀ n, is_bread_product n = true
               ↔ ∃ keyword, keyword ∈ bread_keywords
                            ∧ contains keyword (lower n) = true) as Hiff.
  { intros n. unfold is_bread_product. rewrite existsb_exists.
    split; intros (k & Hk & Hc); exists k; by rewrite ?list_elem_of_In in *. }
  split; [exact Hiff|]. split.
  - intros n. unfold is_bread_product.
    rewrite lower_upper. split; [done|].
    assert (lower (lower n) = lower n) as ->; [|done].
    induction n as [|c n IH]; [done|]. simpl. rewrite IH. f_equal.
    by destruct c as [[] [] [] [] [] [] [] []].
  - intros a n b (k & Hk & Hc)%Hiff. apply Hiff. exists k.
    split; [done|]. rewrite !lower_app.
    by apply contains_app_r, contains_app_l.
Qed.

Lemma bread_filter_is_a_substring_test_witness :
  is_bread_product "bun" = true
  ∧ is_bread_product ("Hair" +:+ "bun" +:+ "dle") = true.
Proof.
  assert (is_bread_product "bun" = true) as H by reflexivity.
  split; [exact H|].
  exact (proj2 (proj2 bread_filter_is_a_substring_test) "Hair" "bun" "dle" H).
Defined.

(** ** The loop of [scrape_products] *)


Lemma elem_of_take {A} (n : nat) (l : list A) (x : A) :
  x ∈ take n l → x ∈ l.
Proof.
  revert n. induction l as [|y l IH]; intros [|n]; simpl;
    try by intros ?%elem_of_nil.
  intros [-> | H]%elem_of_cons; [by left | right; by apply (IH n)].
Qed.

Lemma elem_of_collect (extract : Element → option Scraped)
    (products : list Element) (d : Scraped) :
  d ∈ collect extract products →
  ∃ e, e ∈ products ∧ extract e = Some d
       ∧ is_bread_product (s_name d) = true.
Proof.
  unfold collect. intros (e & He & Hd)%list_elem_of_omap.
  exists e. split; [by apply elem_of_take in He|].
  destruct (extract e) as [d'|]; [|done]. simpl in Hd.
  destruct (is_bread_product (s_name d')) eqn:E; [|done].
  by injection Hd as <-.
Qed.




(** X6.  A product element without a name element is never kept, by any of
    the three scrapers: its name is ["Unknown"], which the Zepto and
    Blinkit scrapers take for its own brand and remove, and in which no
    bread keyword occurs.  Every product a scraper returns was extracted
    from an element that has a name element. *)
Theorem nameless_products_are_dropped (products : list Element) :
  let named := λ scrape extract,
    ∀ d : Scraped, d ∈ scrape products →
      ∃ e, e ∈ products ∧ is_Some (name_element e) ∧ extract e = Some d in
  named scrape_zepto (extract_product_data "zepto")
  ∧ named scrape_blinkit (extract_product_data "blinkit")
  ∧ named scrape_bbnow extract_product_data_bbnow.
Proof.
  intros named. subst named. cbv beta.
  unfold scrape_zepto, scrape_blinkit, scrape_bbnow.
  repeat split; intros d (e & He & Hd & Hbread)%elem_of_collect;
    exists e; (split; [done|]); (split; [|done]);
    (destruct (name_element e) as [n|] eqn:Hn; [by eexists|]); exfalso.
  - unfold extract_product_data in Hd. rewrite Hn in Hd. simpl in Hd.
    injection Hd as <-. by vm_compute in Hbread.
  - unfold extract_product_data in Hd. rewrite Hn in Hd. simpl in Hd.
    injection Hd as <-. by vm_compute in Hbread.
  - unfold extract_product_data_bbnow in Hd. rewrite Hn in Hd. simpl in Hd.
    injection Hd as <-. by vm_compute in Hbread.
Qed.


End ExtractFacts.
Module LabelFacts.
Import Text Scraper Frame Fuzz Analyser Extractor Labels ExtractFacts.

(** ** Letter case, character by character *)

Lemma upper_char_idem (c : ascii) : upper_char (upper_char c) = upper_char c.
Proof. by destruct c as [[] [] [] [] [] [] [] []]. Qed.

Lemma upper_lower_char (c : ascii) : upper_char (lower_char c) = upper_char c.
Proof. by destruct c as [[] [] [] [] [] [] [] []]. Qed.

Lemma is_space_upper_char (c : ascii) : is_space (upper_char c) = is_space c.
Proof. by destruct c as [[] [] [] [] [] [] [] []]. Qed.

Lemma is_upper_lower_char (c : ascii) : is_upper (lower_char c) = false.
Proof. by destruct c as [[] [] [] [] [] [] [] []]. Qed.


Lemma upper_idem (s : string) : upper (upper s) = upper s.
Proof.
  induction s as [|c s IH]; [done|].
  simpl. by rewrite upper_char_idem, IH.
Qed.

Lemma upper_lower (s : string) : upper (lower s) = upper s.
Proof.
  induction s as [|c s IH]; [done|].
  simpl. by rewrite upper_lower_char, IH.
Qed.

Lemma upper_title_from (cased : bool) (s : string) :
  upper (title_from cased s) = upper s.
Proof.
  revert cased. induction s as [|c s IH]; intros cased; [done|].
  simpl. destruct (is_lower c); [|destruct (is_upper c)]; simpl;
    rewrite IH; f_equal; destruct cased;
    auto using upper_char_idem, upper_lower_char.
Qed.

Lemma upper_title (s : string) : upper (title s) = upper s.
Proof. apply upper_title_from. Qed.

Lemma upper_lstrip (s : string) : upper (lstrip s) = lstrip (upper s).
Proof.
  induction s as [|c s IH]; [done|].
  simpl. rewrite is_space_upper_char. by destruct (is_space c).
Qed.

Lemma upper_rstrip (s : string) : upper (rstrip s) = rstrip (upper s).
Proof.
  induction s as [|c s IH]; [done|].
  cbn [rstrip upper]. rewrite <- IH, is_space_upper_char.
  destruct (rstrip s); [|done]. by destruct (is_space c).
Qed.

Lemma upper_strip (s : string) : upper (strip s) = strip (upper s).
Proof. unfold strip. by rewrite upper_rstrip, upper_lstrip. Qed.

(** The key a brand is looked up under is in upper case and trimmed. *)
Lemma lookup_key_fixed (a : string) :
  strip (upper (strip (upper a))) = strip (upper a).
Proof. by rewrite upper_strip, upper_idem, strip_idem. Qed.

(** ** [_standardize_brand] *)

(** The test for ["Unknown"] agrees with the general rule: the label of a
    brand is a function of its trimmed upper-case form. *)
Lemma standardize_brand_key (a : string) :
  standardize_brand (Some a)
  = default (title (strip (upper a)))
            (dict_get (strip (upper a)) brand_mappings).
Proof.
  unfold standardize_brand.
  destruct (String.eqb a "Unknown") eqn:E; [|done].
  apply String.eqb_eq in E. by subst a.
Qed.

(** X7.  The label [_standardize_brand] gives a brand depends only on its
    upper-case form with the blanks at both ends removed: two spellings
    with the same such form get the same label, so the label does not
    change when the brand is lowered, raised or trimmed. *)
Theorem brand_label_ignores_case_and_blanks :
  (∀ a b, strip (upper a) = strip (upper b) →
          standardize_brand (Some a) = standardize_brand (Some b))
  ∧ (∀ a, standardize_brand (Some (lower a)) = standardize_brand (Some a)
          ∧ standardize_brand (Some (upper a)) = standardize_brand (Some a)
          ∧ standardize_brand (Some (strip a)) = standardize_brand (Some a)).
Proof.
  assert (∀ a b, strip (upper a) = strip (upper b) →
                 standardize_brand (Some a) = standardize_brand (Some b))
    as Hkey.
  { intros a b E. by rewrite !standardize_brand_key, E. }
  split; [exact Hkey|]. intros a. repeat split; apply Hkey.
  - by rewrite upper_lower.
  - by rewrite upper_idem.
  - by rewrite upper_strip, strip_idem.
Qed.

Lemma brand_label_ignores_case_and_blanks_witness :
  strip (upper "  britannia ") = strip (upper "Britannia")
  ∧ standardize_brand (Some "  britannia ")
    = standardize_brand (Some "Britannia").
Proof.
  assert (strip (upper "  britannia ") = strip (upper "Britannia")) as H
    by reflexivity.
  split; [exact H|].
  exact (proj1 brand_label_ignores_case_and_blanks _ _ H).
Defined.

(** Every label of the dictionary is its own label. *)
Lemma mapped_labels_fixed (k v : string) :
  dict_get k brand_mappings = Some v → standardize_brand (Some v) = v.
Proof.
  unfold brand_mappings. cbn [dict_get].
  repeat (destruct (String.eqb _ k); [by intros [= <-]|]).
  done.
Qed.

(** X8.  [_standardize_brand] is idempotent: the label of a label is the
    label itself, for a missing brand as well. *)
Theorem brand_label_idempotent (brand : option string) :
  standardize_brand (Some (standardize_brand brand)) = standardize_brand brand.
Proof.
  destruct brand as [a|]; [|done].
  rewrite (standardize_brand_key a).
  destruct (dict_get (strip (upper a)) brand_mappings) as [v|] eqn:Hget.
  - cbn [default from_option id].
    by apply (mapped_labels_fixed (strip (upper a))).
  - cbn [default from_option id]. rewrite standardize_brand_key.
    rewrite upper_title, lookup_key_fixed. by rewrite Hget.
Qed.







(** ** [_create_product_key] *)

Lemma lower_has_no_upper (s : string) :
  all_chars (λ c, negb (is_upper c)) (lower s) = true.
Proof.
  induction s as [|c s IH]; [done|].
  simpl. by rewrite is_upper_lower_char, IH.
Qed.

(** [re.sub] with an empty replacement only removes characters. *)
Lemma sub_variations_all_chars (p : ascii → bool) (s : string)
    (before : option ascii) (skip : nat) :
  all_chars p s = true → all_chars p (sub_variations before skip s) = true.
Proof.
  revert before skip. induction s as [|c s IH]; intros before skip; [done|].
  cbn [all_chars sub_variations]. intros [Hc Hs]%andb_true_iff.
  destruct skip as [|k]; [|by apply IH].
  destruct (match_variation before (String c s)); [by apply IH|].
  cbn [all_chars]. rewrite Hc. by apply IH.
Qed.

Lemma filter_chars_all_chars (p q r : ascii → bool) (s : string) :
  (∀ c, p c = true → q c = true → r c = true) →
  all_chars p s = true → all_chars r (filter_chars q s) = true.
Proof.
  intros Hpqr. induction s as [|c s IH]; [done|].
  simpl. intros [Hc Hs]%andb_true_iff.
  destruct (q c) eqn:Hq; [|by apply IH].
  simpl. rewrite (Hpqr c Hc Hq). by apply IH.
Qed.

Lemma all_chars_snoc (p : ascii → bool) (s : string) (c : ascii) :
  all_chars p (s +:+ String c "") = all_chars p s && p c.
Proof.
  induction s as [|d s IH]; simpl; [by rewrite andb_true_r|].
  by rewrite IH, andb_assoc.
Qed.

(** The words [split()] returns are not empty and hold no blank. *)
Lemma split_from_words (q : ascii → bool) (s cur : string) :
  all_chars q cur = true →
  all_chars (λ c, is_space c || q c) s = true →
  Forall (λ w, w ≠ "" ∧ all_chars q w = true) (split_from cur s).
Proof.
  revert cur. induction s as [|c s IH]; intros cur Hcur; simpl.
  - intros _. destruct cur; [done|]. by repeat constructor.
  - intros [Hc Hs]%andb_true_iff. destruct (is_space c) eqn:Hsp.
    + destruct cur as [|d cur]; [by apply IH|].
      constructor; [done | by apply IH].
    + apply IH; [|done]. rewrite all_chars_snoc, Hcur. by simpl in Hc.
Qed.

(** X10.  The key [_create_product_key] gives a row is the lowered
    standardized brand, an underscore, and the words of the name joined
    by single blanks, where every word is a non-empty run of lower-case
    letters, digits and underscores: the name part of a key holds no
    capital letter, no punctuation and no blank other than one between
    two words.  The key is that of the row with nothing but its name:
    weight, price and platform do not enter it. *)
Theorem product_key_shape (row : Row) (brand_standardized : string) :
  (∃ ws, create_product_key row brand_standardized
         = lower brand_standardized +:+ "_" +:+ join_blank ws
         ∧ Forall key_word ws)
  ∧ create_product_key row brand_standardized
    = create_product_key (mkRow (name row) None None None "" None)
                         brand_standardized.
Proof.
  split; [|done]. unfold create_product_key, normalize_name.
  eexists. split; [reflexivity|].
  apply (split_from_words is_key_char); [done|].
  unfold remove_punctuation.
  apply (filter_chars_all_chars (λ c, negb (is_upper c))).
  - intros c Hup [Hw|Hsp]%orb_true_iff.
    + apply orb_true_iff. right. unfold is_key_char. by rewrite Hw, Hup.
    + by rewrite Hsp.
  - apply sub_variations_all_chars, lower_has_no_upper.
Qed.

End LabelFacts.
Module SlotFacts.
Import Text Frame Analyser Reports FrameFacts DealFacts TableFacts Scenario.

(** ** The first cheapest deal of a list *)

Lemma first_cheapest_in (ds : list Deal) (d : Deal) (v : Qc) :
  first_cheapest ds d v → d ∈ ds ∧ deal_price_per_100g d = Some v.
Proof.
  intros (pre & post & -> & Hv & _). split; [|done].
  apply elem_of_app. right. by left.
Qed.

Lemma first_cheapest_least (ds : list Deal) (d e : Deal) (v w : Qc) :
  first_cheapest ds d v → e ∈ ds → deal_price_per_100g e = Some w →
  (v ≤ w)%Qc.
Proof.
  intros (pre & post & -> & Hv & Hpre & Hpost).
  intros [He | [-> | He]%elem_of_cons]%elem_of_app Hw.
  - by apply Qclt_le_weak, (Hpre e).
  - rewrite Hv in Hw. injection Hw as <-. apply Qcle_refl.
  - by apply (Hpost e).
Qed.

Lemma first_cheapest_single (d : Deal) (v : Qc) :
  deal_price_per_100g d = Some v → first_cheapest [d] d v.
Proof.
  intros Hv. exists [], []. split; [done|]. split; [done|].
  split; by intros e w ?%elem_of_nil.
Qed.

(** A later deal that is not cheaper changes nothing. *)
Lemma first_cheapest_keep (ds : list Deal) (d e : Deal) (v w : Qc) :
  first_cheapest ds d v → deal_price_per_100g e = Some w → (v ≤ w)%Qc →
  first_cheapest (ds ++ [e]) d v.
Proof.
  intros (pre & post & -> & Hv & Hpre & Hpost) Hw Hle.
  exists pre, (post ++ [e])%list.
  split; [by rewrite <- app_assoc|]. split; [done|]. split; [done|].
  intros x y [Hx | ->%list_elem_of_singleton]%elem_of_app Hy.
  - by apply (Hpost x).
  - rewrite Hw in Hy. by injection Hy as <-.
Qed.

(** A later deal that is strictly cheaper becomes the first cheapest. *)
Lemma first_cheapest_move (ds : list Deal) (d e : Deal) (v w : Qc) :
  first_cheapest ds d v → deal_price_per_100g e = Some w → (w < v)%Qc →
  first_cheapest (ds ++ [e]) e w.
Proof.
  intros Hd Hw Hlt. exists ds, [].
  split; [done|]. split; [done|]. split; [|by intros x y ?%elem_of_nil].
  intros x y Hx Hy. eapply Qclt_le_trans; [exact Hlt|].
  by apply (first_cheapest_least ds d x).
Qed.

Lemma on_platform_snoc (ds : list Deal) (d : Deal) (p : string) :
  on_platform (ds ++ [d]) p
  = (on_platform ds p
     ++ if bool_decide (deal_platform d = p) then [d] else [])%list.
Proof.
  unfold on_platform. rewrite List.filter_app. simpl.
  by destruct (bool_decide _).
Qed.

Lemma elem_of_on_platform (ds : list Deal) (p : string) (d : Deal) :
  d ∈ on_platform ds p ↔ d ∈ ds ∧ deal_platform d = p.
Proof.
  unfold on_platform. by rewrite elem_of_filter_bool, bool_decide_eq_true.
Qed.

Lemma elem_of_group_of (deals_df : list Deal) (gid : option nat) (d : Deal) :
  d ∈ group_of deals_df gid
  ↔ d ∈ deals_df ∧ group_is gid (deal_product_group d) = true.
Proof. unfold group_of. by rewrite elem_of_filter_bool. Qed.

(** ** One iteration of the loop that fills the slots *)

(** What an iteration does to the slot of the deal's platform, column by
    column; the other slots are left as they are. *)
Lemma populate_step_slot (comparable : bool) (best : option string)
    (m m' : gmap string Slot) (d : Deal) :
  populate_step comparable best m d = Some m' →
  ∃ slot s', m !! deal_platform d = Some slot
    ∧ m' = <[deal_platform d := s']> m
    ∧ (slot_per_100g s', slot_price s')
      = match slot_per_100g slot with
        | Some cur =>
            if num_lt (deal_price_per_100g d) cur
            then (Some (deal_price_per_100g d), Some (deal_price d))
            else (slot_per_100g slot, slot_price slot)
        | None => (Some (deal_price_per_100g d), Some (deal_price d))
        end
    ∧ slot_is_best s'
      = slot_is_best slot
        || (comparable && bool_decide (Some (deal_platform d) = best)).
Proof.
  unfold populate_step.
  destruct (m !! deal_platform d) as [slot|]; [|done]. simpl.
  intros [= <-]. eexists slot, _. split; [done|]. split; [done|].
  destruct (comparable && bool_decide (Some (deal_platform d) = best));
    destruct (slot_per_100g slot) as [cur|] eqn:Hcur;
    try destruct (num_lt (deal_price_per_100g d) cur);
    simpl; rewrite ?orb_true_r, ?orb_false_r, ?Hcur; by split.
Qed.

(** The loop, read as the repeated extension of the deals seen so far. *)
Lemma populate_induction (P : list Deal → gmap string Slot → Prop)
    (comparable : bool) (best : option string) (rest : list Deal) :
  ∀ seen m m',
    (∀ seen m d m', d ∈ rest → P seen m →
       populate_step comparable best m d = Some m' → P (seen ++ [d])%list m') →
    P seen m → populate comparable best m rest = Some m' →
    P (seen ++ rest)%list m'.
Proof.
  induction rest as [|d rest IH]; intros seen m m' Hstep Hm; simpl.
  - intros [= <-]. by rewrite app_nil_r.
  - destruct (populate_step comparable best m d) as [m1|] eqn:E; [|done].
    simpl. intros Hrest. rewrite (cons_middle d seen rest), app_assoc.
    apply (IH _ m1); [|by apply (Hstep seen m d m1); [left|..]|done].
    intros seen' m2 d' m3 Hd'. apply Hstep. by right.
Qed.

Lemma shows_cheapest_snoc (ds : list Deal) (d : Deal) (s : Slot) :
  shows_cheapest (ds ++ [d]) s
  ↔ ∃ d0 v, first_cheapest (ds ++ [d]) d0 v
            ∧ slot_price s = Some (deal_price d0)
            ∧ slot_per_100g s = Some (Some v).
Proof. unfold shows_cheapest. by destruct ds. Qed.

Lemma initial_slots_show : slots_show [] initial_slots.
Proof.
  split.
  - intros p Hp. unfold platforms in Hp.
    repeat (apply elem_of_cons in Hp as [-> | Hp];
            [by eexists; split; [vm_compute; reflexivity|]|]).
    by apply elem_of_nil in Hp.
  - intros p Hp. unfold initial_slots, platforms in *. simpl.
    rewrite !lookup_insert_ne; [done|..]; intros <-; apply Hp;
      repeat first [ by left | right ].
Qed.

(** Reading one more priced deal keeps every slot on the first cheapest
    deal of its platform. *)
Lemma populate_step_shows (comparable : bool) (best : option string)
    (seen : list Deal) (m m' : gmap string Slot) (d : Deal) :
  is_Some (deal_price_per_100g d) → slots_show seen m →
  populate_step comparable best m d = Some m' →
  slots_show (seen ++ [d]) m'.
Proof.
  intros [v Hv] [Hin Hout]
    (slot & s' & Hslot & -> & Hcols & _)%populate_step_slot.
  assert (deal_platform d ∈ platforms) as Hq.
  { destruct (decide (deal_platform d ∈ platforms)) as [?|Hno]; [done|].
    by rewrite (Hout _ Hno) in Hslot. }
  split.
  - intros p Hp. rewrite on_platform_snoc.
    destruct (decide (deal_platform d = p)) as [<-|Hne].
    + rewrite lookup_insert_eq, bool_decide_eq_true_2; [|done].
      exists s'. split; [done|]. apply shows_cheapest_snoc.
      destruct (Hin _ Hq) as (s0 & Hs0 & Hshow).
      rewrite Hslot in Hs0. injection Hs0 as <-.
      unfold shows_cheapest in Hshow.
      destruct (on_platform seen (deal_platform d)) as [|d1 ds] eqn:Hds.
      * subst slot. simpl in Hcols. injection Hcols as Hper Hprice.
        exists d, v. split; [by apply first_cheapest_single|].
        by rewrite Hper, Hprice, Hv.
      * destruct Hshow as (d0 & v0 & Hfc & Hprice0 & Hper0).
        rewrite Hper0, Hv in Hcols. unfold num_lt in Hcols.
        case_bool_decide as Hlt; injection Hcols as Hper Hprice.
        -- exists d, v. split; [by apply (first_cheapest_move _ d0 d v0)|].
           by rewrite Hper, Hprice.
        -- exists d0, v0.
           split; [by apply (first_cheapest_keep _ d0 d v0 v);
                     [..|apply Qcnot_lt_le]|].
           by rewrite Hper, Hprice.
    + rewrite lookup_insert_ne, bool_decide_eq_false_2, app_nil_r; [|done..].
      by apply Hin.
  - intros p Hp. rewrite lookup_insert_ne; [by apply Hout|].
    by intros <-.
Qed.

Lemma priced_group (deals_df : list Deal) (gid : option nat) (d : Deal) :
  priced_deals deals_df → d ∈ group_of deals_df gid →
  is_Some (deal_price_per_100g d).
Proof. intros Hp [Hd _]%elem_of_group_of. by apply Hp. Qed.

(** The slots of a finished row. *)
Lemma comparison_row_shows (deals_df : list Deal) (gid : option nat)
    (row : ComparisonRow) :
  priced_deals deals_df → comparison_row deals_df gid = Some row →
  slots_show (group_of deals_df gid) (slots row).
Proof.
  intros Hpriced (_ & _ & _ & _ & Hpop)%comparison_row_Some.
  apply (populate_induction slots_show _ _ _ [] _ _) in Hpop; [done| |].
  - intros seen m d m' Hd. apply populate_step_shows.
    by apply (priced_group deals_df gid).
  - apply initial_slots_show.
Qed.

(** X11.  On deals whose prices per 100 g are numbers, every row of the
    comparison table has a slot for each of the three platforms and for
    nothing else.  The slot of a platform without a deal in the group is
    empty and unmarked; the slot of any other platform shows the price and
    the price per 100 g of the first deal, in row order, whose price per
    100 g is the least among the platform's deals of the group: a later
    listing replaces an earlier one only when it is strictly cheaper. *)
Theorem slot_shows_cheapest_listing (deals_df : list Deal)
    (rows : list ComparisonRow) :
  priced_deals deals_df →
  create_comparison_table deals_df = Some rows →
  Forall2 (λ gid row,
      (∀ p, p ∈ platforms →
         ∃ s, slots row !! p = Some s
              ∧ shows_cheapest (on_platform (group_of deals_df gid) p) s)
      ∧ (∀ p, p ∉ platforms → slots row !! p = None))
    (unique (map deal_product_group deals_df)) rows.
Proof.
  intros Hpriced Htable.
  eapply Forall2_impl; [exact (table_rows _ _ Htable)|].
  intros gid row Hrow. by apply comparison_row_shows.
Qed.

(** ** The mark of the best platform *)

(** In a comparable group, the slot of the best platform is marked as
    soon as a deal of that platform has been read, and stays marked. *)
Lemma populate_step_best (p : string) (seen : list Deal)
    (m m' : gmap string Slot) (d : Deal) :
  ((∃ e, e ∈ seen ∧ deal_platform e = p) →
   ∃ s, m !! p = Some s ∧ slot_is_best s = true) →
  populate_step true (Some p) m d = Some m' →
  (∃ e, e ∈ (seen ++ [d])%list ∧ deal_platform e = p) →
  ∃ s, m' !! p = Some s ∧ slot_is_best s = true.
Proof.
  intros Hseen (slot & s' & Hslot & -> & _ & Hbest)%populate_step_slot
    (e & He & Hep).
  destruct (decide (deal_platform d = p)) as [Hd|Hd].
  - rewrite Hd, lookup_insert_eq. exists s'. split; [done|].
    rewrite Hbest, Hd, bool_decide_eq_true_2; [|done]. apply orb_true_r.
  - rewrite lookup_insert_ne; [|done]. apply Hseen. exists e.
    split; [|done].
    apply elem_of_app in He as [He | ->%list_elem_of_singleton]; done.
Qed.

(** The scan for the best platform of a group that has a priced deal. *)
Lemma best_deal_platform_exists (group : list Deal) :
  group ≠ [] → (∀ d, d ∈ group → is_Some (deal_price_per_100g d)) →
  ∃ d v, first_cheapest group d v
         ∧ best_deal_platform true group = Some (deal_platform d).
Proof.
  intros Hne Hpriced. unfold best_deal_platform.
  destruct (best_fold_spec group (None, None))
    as [[_ Hall] | (pre & d & post & v & -> & Hres & Hv & Hpre & Hpost & _)].
  - destruct group as [|e group]; [done|].
    destruct (Hpriced e) as [w Hw]; [by left|].
    by destruct (Hall e w) as (b & ? & _); [by left|..].
  - exists d, v. split; [by exists pre, post|]. by rewrite Hres.
Qed.

(** ** The sort key of the dashboard *)

Lemma foldl_least (l : list Qc) (x : Qc) :
  let r := foldl (λ m y, if bool_decide (y < m)%Qc then y else m) x l in
  (r = x ∨ r ∈ l) ∧ (r ≤ x)%Qc ∧ ∀ y, y ∈ l → (r ≤ y)%Qc.
Proof.
  revert x. induction l as [|y l IH]; intros x; simpl.
  - split; [by left|]. split; [apply Qcle_refl|]. by intros y ?%elem_of_nil.
  - case_bool_decide as Hlt.
    + destruct (IH y) as (Hin & Hle & Hall). split; [|split].
      * right. destruct Hin as [-> | Hin]; [by left | by right].
      * eapply Qcle_trans; [exact Hle|]. by apply Qclt_le_weak.
      * intros z [-> | Hz]%elem_of_cons; [done | by apply Hall].
    + destruct (IH x) as (Hin & Hle & Hall). split; [|split].
      * destruct Hin as [-> | Hin]; [by left | right; by right].
      * done.
      * intros z [-> | Hz]%elem_of_cons; [|by apply Hall].
        eapply Qcle_trans; [exact Hle|]. by apply Qcnot_lt_le.
Qed.

(** The least of the cells that hold a number. *)
Lemma least_cell (cells : list (option num)) (v : Qc) :
  Some (Some v) ∈ cells → (∀ w, Some (Some w) ∈ cells → (v ≤ w)%Qc) →
  match omap (λ cell : option num, cell ≫= id) cells with
  | [] => Some None
  | x :: prices =>
      Some (Some (foldl (λ m y, if bool_decide (y < m)%Qc then y else m)
                        x prices))
  end = Some (Some v).
Proof.
  intros Hv Hleast.
  assert (∀ w, w ∈ omap (λ cell : option num, cell ≫= id) cells
               ↔ Some (Some w) ∈ cells) as Hmem.
  { intros w. rewrite list_elem_of_omap. split.
    - intros ([[u|]|] & Hc & Hu); simpl in Hu; try done.
      by injection Hu as <-.
    - intros Hw. by exists (Some (Some w)). }
  destruct (omap _ cells) as [|x prices] eqn:E.
  { apply Hmem in Hv. by apply elem_of_nil in Hv. }
  do 2 f_equal.
  destruct (foldl_least prices x) as (Hin & Hle & Hall).
  apply Qcle_antisym.
  - apply Hmem, elem_of_cons in Hv as [-> | Hv]; [done | by apply Hall].
  - apply Hleast, Hmem. destruct Hin as [-> | Hin]; [by left | by right].
Qed.

Lemma shown_price_in_group (group : list Deal) (p : string) (s : Slot)
    (w : Qc) :
  shows_cheapest (on_platform group p) s →
  slot_per_100g s = Some (Some w) →
  ∃ d, d ∈ group ∧ deal_price_per_100g d = Some w.
Proof.
  unfold shows_cheapest.
  destruct (on_platform group p) as [|d1 ds] eqn:E; [by intros ->|].
  intros (d & v & [Hd Hv]%first_cheapest_in & _ & Hper) Hw.
  rewrite Hper in Hw. injection Hw as <-. exists d. split; [|done].
  rewrite <- E in Hd. by apply elem_of_on_platform in Hd as [? _].
Qed.

Lemma get_min_price_least (row : ComparisonRow) (group : list Deal)
    (p : string) (s : Slot) (v : Qc) :
  slots_show group (slots row) →
  slots row !! p = Some s → slot_per_100g s = Some (Some v) →
  (∀ e w, e ∈ group → deal_price_per_100g e = Some w → (v ≤ w)%Qc) →
  get_min_price row = Some (Some v).
Proof.
  intros [Hin Hout] Hs Hv Hleast.
  destruct (Hin "blinkit") as (s1 & H1 & Hs1); [by left|].
  destruct (Hin "zepto") as (s2 & H2 & Hs2); [right; by left|].
  destruct (Hin "bbnow") as (s3 & H3 & Hs3); [right; right; by left|].
  assert (p ∈ platforms) as Hp.
  { destruct (decide (p ∈ platforms)) as [?|Hno]; [done|].
    by rewrite (Hout _ Hno) in Hs. }
  unfold get_min_price, platforms. cbn [mapM].
  rewrite H1, H2, H3. cbn [fmap option_fmap option_map mbind option_bind
                           mret option_ret].
  apply least_cell.
  - unfold platforms in Hp.
    apply elem_of_cons in Hp as [-> | Hp];
      [rewrite H1 in Hs; injection Hs as ->; rewrite Hv; by left|].
    apply elem_of_cons in Hp as [-> | Hp];
      [rewrite H2 in Hs; injection Hs as ->; rewrite Hv; right; by left|].
    apply elem_of_cons in Hp as [-> | Hp];
      [rewrite H3 in Hs; injection Hs as ->; rewrite Hv;
       right; right; by left|].
    by apply elem_of_nil in Hp.
  - intros w Hw.
    assert (∃ q sq, shows_cheapest (on_platform group q) sq
                    ∧ slot_per_100g sq = Some (Some w))
      as (q & sq & Hsq & Hper).
    { apply elem_of_cons in Hw as [Hw | Hw]; [by exists "blinkit", s1|].
      apply elem_of_cons in Hw as [Hw | Hw]; [by exists "zepto", s2|].
      apply elem_of_cons in Hw as [Hw | Hw]; [by exists "bbnow", s3|].
      by apply elem_of_nil in Hw. }
    destruct (shown_price_in_group group q sq w Hsq Hper) as (d & Hd & Hdw).
    by apply (Hleast d).
Qed.

(** X12.  On deals whose prices per 100 g are numbers, every comparable row
    of the comparison table has a marked slot.  The price per 100 g it
    shows is the least of the whole group, and it is the value
    [get_min_price] of the dashboard sorts the rows by under "Best
    Price". *)
Theorem comparable_row_marks_cheapest (deals_df : list Deal)
    (rows : list ComparisonRow) :
  priced_deals deals_df →
  create_comparison_table deals_df = Some rows →
  Forall2 (λ gid row,
      is_comparable row = true →
      ∃ p s v, slots row !! p = Some s ∧ slot_is_best s = true
        ∧ slot_per_100g s = Some (Some v)
        ∧ (∀ d w, d ∈ group_of deals_df gid →
                  deal_price_per_100g d = Some w → (v ≤ w)%Qc)
        ∧ get_min_price row = Some (Some v))
    (unique (map deal_product_group deals_df)) rows.
Proof.
  intros Hpriced Htable.
  eapply Forall2_impl; [exact (table_rows _ _ Htable)|].
  intros gid row Hrow Hcomp. simpl.
  pose proof (comparison_row_shows _ _ _ Hpriced Hrow) as Hshow.
  destruct (comparison_row_Some _ _ _ Hrow) as (_ & _ & Hc & _ & Hpop).
  set (group := group_of deals_df gid) in *.
  rewrite Hcomp in Hc. rewrite <- Hc in Hpop.
  assert (group ≠ []) as Hne.
  { intros E. rewrite E in Hc. done. }
  destruct (best_deal_platform_exists group Hne) as (d & v & Hfc & Hbest).
  { intros e. apply (priced_group deals_df gid e Hpriced). }
  rewrite Hbest in Hpop.
  destruct (first_cheapest_in _ _ _ Hfc) as [Hd Hdv].
  assert (∃ s, slots row !! deal_platform d = Some s
               ∧ slot_is_best s = true) as (s & Hs & Hmark).
  { apply (populate_induction
             (λ seen m,
                (∃ e, e ∈ seen ∧ deal_platform e = deal_platform d) →
                ∃ s, m !! deal_platform d = Some s ∧ slot_is_best s = true)
             true (Some (deal_platform d)) group [] initial_slots
             (slots row)).
    - intros seen m e m' _. apply populate_step_best.
    - by intros (e & ?%elem_of_nil & _).
    - exact Hpop.
    - by exists d. }
  destruct Hshow as [Hin Hout].
  assert (deal_platform d ∈ platforms) as Hp.
  { destruct (decide (deal_platform d ∈ platforms)) as [?|Hno]; [done|].
    by rewrite (Hout _ Hno) in Hs. }
  destruct (Hin _ Hp) as (s0 & Hs0 & Hs0show).
  rewrite Hs in Hs0. injection Hs0 as <-.
  unfold shows_cheapest in Hs0show.
  destruct (on_platform group (deal_platform d)) as [|d1 ds] eqn:E.
  { assert (d ∈ on_platform group (deal_platform d)) as Hd'
      by by apply elem_of_on_platform.
    rewrite E in Hd'. by apply elem_of_nil in Hd'. }
  destruct Hs0show as (d0 & v0 & Hfc0 & _ & Hper).
  assert (v0 = v) as ->.
  { destruct (first_cheapest_in _ _ _ Hfc0) as [Hd0 Hd0v].
    rewrite <- E in Hd0, Hfc0.
    apply elem_of_on_platform in Hd0 as [Hd0 _].
    apply Qcle_antisym.
    - apply (first_cheapest_least _ d0 d v0 v Hfc0); [|done].
      by apply elem_of_on_platform.
    - by apply (first_cheapest_least _ d d0 v v0 Hfc). }
  exists (deal_platform d), s, v. split; [done|]. split; [done|].
  split; [done|].
  assert (∀ e w, e ∈ group → deal_price_per_100g e = Some w → (v ≤ w)%Qc)
    as Hleast.
  { intros e w. by apply (first_cheapest_least _ d e v w Hfc). }
  split; [exact Hleast|].
  by apply (get_min_price_least row group (deal_platform d) s v).
Qed.

End SlotFacts.
Module BuildFacts.
Import Text Frame Analyser Reports FrameFacts DealFacts TableFacts LoadFacts
  SlotFacts Scenario.

(** ** When the table builder raises *)

Lemma representative_is_Some (col : list (option string)) :
  is_Some (representative col) ↔ col ≠ [].
Proof.
  unfold representative. destruct col as [|v col].
  - split; [by intros [? [=]] | done].
  - split; [done|]. intros _.
    by destruct (mode (omap id (v :: col))).
Qed.

Lemma initial_slots_keys (p : string) :
  is_Some (initial_slots !! p) ↔ p ∈ platforms.
Proof.
  destruct initial_slots_show as [Hin Hout]. split.
  - intros Hp. destruct (decide (p ∈ platforms)) as [?|Hno]; [done|].
    rewrite (Hout _ Hno) in Hp. by destruct Hp.
  - intros Hp. destruct (Hin _ Hp) as (s & -> & _). by eexists.
Qed.

(** The loop over the deals of a group returns exactly when each of them is
    on one of the three platforms; it raises [KeyError] at the first that is
    not. *)
Lemma populate_is_Some (comparable : bool) (best : option string)
    (group : list Deal) (m : gmap string Slot) :
  (∀ p, is_Some (m !! p) ↔ p ∈ platforms) →
  is_Some (populate comparable best m group)
  ↔ Forall (λ d, deal_platform d ∈ platforms) group.
Proof.
  revert m. induction group as [|d group IH]; intros m Hkeys; simpl.
  - split; [done | by eexists].
  - rewrite Forall_cons.
    destruct (populate_step comparable best m d) as [m1|] eqn:E; simpl.
    + apply populate_step_slot in E as (slot & s' & Hslot & -> & _).
      assert (deal_platform d ∈ platforms) as Hd.
      { apply Hkeys. by eexists. }
      rewrite IH; [tauto|].
      intros p. rewrite lookup_insert_is_Some'. rewrite Hkeys.
      split; [|tauto]. by intros [<- | ?].
    + split; [by intros [? [=]]|]. intros [Hd _].
      apply Hkeys in Hd as [slot Hslot].
      unfold populate_step in E. by rewrite Hslot in E.
Qed.

Lemma comparison_row_is_Some (deals_df : list Deal) (gid : option nat) :
  is_Some (comparison_row deals_df gid)
  ↔ group_of deals_df gid ≠ []
    ∧ Forall (λ d, deal_platform d ∈ platforms) (group_of deals_df gid).
Proof.
  unfold comparison_row. fold (group_of deals_df gid).
  set (group := group_of deals_df gid).
  pose proof (representative_is_Some (map deal_name group)) as Hn.
  pose proof (representative_is_Some (map (λ d, Some (deal_brand d)) group))
    as Hb.
  pose proof (populate_is_Some
                (2 <=? nunique (map deal_platform group))%nat
                (best_deal_platform
                   (2 <=? nunique (map deal_platform group))%nat group)
                group initial_slots initial_slots_keys) as Hp.
  assert (∀ B (f : Deal → B), map f group ≠ [] ↔ group ≠ []) as Hmap.
  { intros B f. by destruct group. }
  rewrite Hmap in Hn, Hb.
  destruct (representative (map deal_name group)) as [nm|]; simpl;
    [|split; [by intros [? [=]] | intros [Hne _]; apply Hn in Hne;
                                  by destruct Hne]].
  destruct (representative (map _ group)) as [br|]; simpl;
    [|split; [by intros [? [=]] | intros [Hne _]; apply Hb in Hne;
                                  by destruct Hne]].
  destruct (populate _ _ _ _) as [sl|]; simpl.
  - split; [|by eexists]. intros _. split; [by apply Hn | by apply Hp].
  - split; [by intros [? [=]]|]. intros [_ Hall]. apply Hp in Hall.
    by destruct Hall.
Qed.

Lemma group_of_None (deals_df : list Deal) : group_of deals_df None = [].
Proof. unfold group_of. by apply filter_none. Qed.

Lemma elem_of_group_ids (deals_df : list Deal) (gid : option nat) :
  gid ∈ unique (map deal_product_group deals_df)
  ↔ ∃ d, d ∈ deals_df ∧ deal_product_group d = gid.
Proof.
  rewrite elem_of_unique, list_elem_of_fmap. split.
  - intros (d & -> & Hd). by exists d.
  - intros (d & Hd & <-). by exists d.
Qed.

(** The builder returns on a frame that has rows, all with a group id and
    on one of the three platforms. *)
Lemma table_is_Some (deals_df : list Deal) :
  deals_df ≠ [] →
  (∀ d, d ∈ deals_df →
        is_Some (deal_product_group d) ∧ deal_platform d ∈ platforms) →
  is_Some (create_comparison_table deals_df).
Proof.
  intros Hne Hall. unfold create_comparison_table.
  destruct deals_df as [|d0 rest] eqn:E; [done|]. rewrite <- E in *.
  apply mapM_is_Some, Forall_forall. intros gid Hgid. simpl.
  apply elem_of_group_ids in Hgid as (d & Hd & <-).
  apply comparison_row_is_Some. split.
  - assert (d ∈ group_of deals_df (deal_product_group d)) as Hin.
    { apply elem_of_group_of. split; [done|].
      destruct (Hall d Hd) as [[g ->] _]. simpl. apply Nat.eqb_refl. }
    intros Hnil. rewrite Hnil in Hin. by apply elem_of_nil in Hin.
  - apply Forall_forall. intros e [He _]%elem_of_group_of.
    by apply Hall.
Qed.

(** X13.  [create_comparison_table] raises in three cases and no other: on a
    frame without rows ([KeyError] on the column [product_group]), on a
    frame with a deal whose group id is missing ([IndexError] on the empty
    selection), and on a frame with a deal of a platform other than
    blinkit, zepto and bbnow ([KeyError] on the column of the platform).
    When it returns, the table has one row per distinct group id, and
    every row counts between one and three platforms and is comparable
    exactly when it counts at least two. *)
Theorem table_builder_raises_iff (deals_df : list Deal) :
  (create_comparison_table deals_df = None
   ↔ deals_df = []
     ∨ ∃ d, d ∈ deals_df
            ∧ (deal_product_group d = None ∨ deal_platform d ∉ platforms))
  ∧ ∀ rows, create_comparison_table deals_df = Some rows →
      length rows = nunique (map deal_product_group deals_df)
      ∧ Forall (λ row,
                  (1 ≤ platforms_available row ≤ 3)%nat
                  ∧ is_comparable row
                    = (2 <=? platforms_available row)%nat) rows.
Proof.
  split.
  - split.
    + intros Hnone.
      destruct (decide (deals_df = [])) as [?|Hne]; [by left|]. right.
      destruct (decide (Exists (λ d, deal_product_group d = None
                                     ∨ deal_platform d ∉ platforms)
                               deals_df)) as [Hex|Hno].
      * apply Exists_exists in Hex as (d & Hd & Hbad). by exists d.
      * exfalso. apply eq_None_not_Some in Hnone. apply Hnone.
        apply table_is_Some; [done|]. intros d Hd.
        destruct (deal_product_group d) as [g|] eqn:Hg.
        -- split; [by eexists|].
           destruct (decide (deal_platform d ∈ platforms)) as [?|Hp];
             [done|].
           destruct Hno. apply Exists_exists. exists d. split; [done|].
           by right.
        -- destruct Hno. apply Exists_exists. exists d. split; [done|].
           by left.
    + intros [-> | (d & Hd & Hbad)]; [done|].
      unfold create_comparison_table.
      destruct deals_df as [|d0 rest] eqn:E; [done|]. rewrite <- E in *.
      apply mapM_None, Exists_exists.
      exists (deal_product_group d).
      split; [apply elem_of_group_ids; by exists d|].
      apply eq_None_not_Some. rewrite comparison_row_is_Some.
      intros [Hne Hall].
      destruct (deal_product_group d) as [g|] eqn:Hg.
      * destruct Hbad as [? | Hbad]; [done|]. apply Hbad.
        rewrite Forall_forall in Hall. apply Hall.
        apply elem_of_group_of. split; [done|].
        rewrite Hg. simpl. apply Nat.eqb_refl.
      * by rewrite group_of_None in Hne.
  - intros rows Htable. pose proof (table_rows _ _ Htable) as Hrows.
    split.
    { symmetry. unfold nunique. by apply (Forall2_length _ _ _ Hrows). }
    eapply Forall2_Forall_r; [exact Hrows|].
    apply Forall_forall. intros gid _ row Hrow.
    assert (is_Some (comparison_row deals_df gid)) as Hsome by by eexists.
    apply comparison_row_is_Some in Hsome as [Hne Hall].
    destruct (comparison_row_Some _ _ _ Hrow) as (_ & _ & -> & -> & _).
    split; [|done]. split.
    + destruct (group_of deals_df gid) as [|d group]; [done|].
      unfold nunique, unique. cbn [map unique_from].
      case_bool_decide as Hin; [by apply elem_of_nil in Hin|].
      simpl. lia.
    + change 3%nat with (length platforms). unfold nunique.
      apply submseteq_length, NoDup_submseteq; [apply NoDup_unique|].
      intros p (d & -> & Hd)%elem_of_unique%list_elem_of_fmap.
      rewrite Forall_forall in Hall. by apply Hall.
Qed.

(** ** Rows that are not comparable *)

Lemma group_of_deals (df : list GroupedRow) (g : nat) :
  group_of (identify_best_deals df) (Some g) = group_deals df (Some g).
Proof.
  rewrite <- deals_of_group. unfold group_of. apply filter_ext.
  intros d. destruct (deal_product_group d) as [h|]; cbn [group_is].
  - destruct (Nat.eqb_spec g h) as [->|Hne].
    + by rewrite bool_decide_eq_true_2.
    + rewrite bool_decide_eq_false_2; [done|]. by intros [= ->].
  - by rewrite bool_decide_eq_false_2.
Qed.

(** X14.  When every row of the matched frame has a price per 100 g above
    zero, every row of the table built from its deals is comparable and
    counts at least two platforms: the deals of a group are then made of
    all its rows, and only groups on two platforms have deals.  The branch
    of [create_comparison_table] for rows that are not comparable is taken
    only for a group that passed the platform count of
    [identify_best_deals] with rows priced zero, which give no deal. *)
Theorem rows_of_a_run_are_comparable (df : list GroupedRow)
    (rows : list ComparisonRow) :
  (∀ r : GroupedRow, r ∈ df → num_pos (price_per_100g r) = true) →
  create_comparison_table (identify_best_deals df) = Some rows →
  Forall (λ row, is_comparable row = true
                 ∧ (2 ≤ platforms_available row)%nat) rows.
Proof.
  intros Hpos Htable.
  eapply Forall2_Forall_r; [exact (table_rows _ _ Htable)|].
  apply Forall_forall. intros gid Hgid row Hrow.
  apply elem_of_group_ids in Hgid as (d & Hd & <-).
  pose proof Hd as (g & _ & Hdg)%elem_of_identify.
  destruct (group_deals_group _ _ _ Hdg) as (? & [= <-] & Hg).
  rewrite Hg in Hrow.
  destruct (comparison_row_Some _ _ _ Hrow) as (_ & _ & -> & -> & _).
  rewrite group_of_deals. rewrite group_deals_Some in Hdg |- *.
  destruct (nunique _ <? 2)%nat eqn:Hplat; [by apply elem_of_nil in Hdg|].
  destruct (length _ <? 2)%nat; [by apply elem_of_nil in Hdg|].
  assert (priced (group_rows df g) = group_rows df g) as ->.
  { unfold priced. apply forallb_filter_id, forallb_forall.
    intros r [Hr _]%list_elem_of_In%elem_of_filter_bool.
    specialize (Hpos r Hr). destruct (price_per_100g r) as [p|]; [|done].
    simpl in *. apply bool_decide_eq_true in Hpos.
    apply negb_true_iff, bool_decide_eq_false. intros ->.
    by apply (Qcle_not_lt 0 0) in Hpos. }
  rewrite map_map. cbn [deal_platform make_deal].
  apply Nat.ltb_ge in Hplat. split; [by apply Nat.leb_le | done].
Qed.

End BuildFacts.
Module InsightFacts.
Import Text Frame Analyser Reports FrameFacts DealFacts TableFacts LoadFacts
  SlotFacts BuildFacts Scenario.

(** ** A deal, traced back to its group *)

(** The group a deal comes from passed both guards, so its least positive
    price is a number above zero; the deal is made from a row of the group
    whose price is not zero, and every such row has its deal. *)
Lemma deal_origin (df : list GroupedRow) (d : Deal) :
  d ∈ identify_best_deals df →
  ∃ g m (r : GroupedRow),
    min_price (group_rows df g) = Some m ∧ (0 < m)%Qc
    ∧ r ∈ group_rows df g
    ∧ num_eq (price_per_100g r) (Some 0%Qc) = false
    ∧ d = make_deal (Some g) (Some m) r
    ∧ (∃ r0 : GroupedRow, r0 ∈ group_rows df g ∧ price_per_100g r0 = Some m)
    ∧ (∀ (r' : GroupedRow) p, r' ∈ group_rows df g →
         price_per_100g r' = Some p → (0 < p)%Qc → (m ≤ p)%Qc)
    ∧ (∀ r' : GroupedRow, r' ∈ priced (group_rows df g) →
         make_deal (Some g) (Some m) r' ∈ identify_best_deals df).
Proof.
  intros (g & Hg & Hd)%elem_of_identify.
  pose proof Hd as Hd'.
  apply group_deals_elem in Hd' as (Hav & r & Hr & Hnz & ->).
  destruct (min_price_spec _ Hav) as (m & Hmin & Hm & Hr0 & Hle).
  exists g, m, r. rewrite Hmin. repeat (split; [done|]).
  intros r' Hr'. apply elem_of_identify. exists g. split; [done|].
  rewrite group_deals_Some in Hd |- *.
  destruct (nunique _ <? 2)%nat; [by apply elem_of_nil in Hd|].
  destruct (length _ <? 2)%nat; [by apply elem_of_nil in Hd|].
  rewrite Hmin. apply list_elem_of_fmap. by exists r'.
Qed.

Lemma percent_nonneg (p m : Qc) :
  (0 < m)%Qc → (m ≤ p)%Qc →
  (0 ≤ (p - m) / m * Q2Qc (100 # 1))%Qc
  ∧ (((p - m) / m * Q2Qc (100 # 1))%Qc = 0%Qc ↔ p = m).
Proof.
  intros Hm Hle. pose proof (Qcinv_pos m Hm) as Hinv. split.
  - apply Qcmult_nonneg_nonneg; [|done]. unfold Qcdiv.
    apply Qcmult_nonneg_nonneg; [by apply Qc_sub_nonneg|].
    by apply Qclt_le_weak.
  - split.
    + intros [H | H]%Qcmult_integral.
      * unfold Qcdiv in H. apply Qcmult_integral in H as [H | H].
        -- by apply Qc_sub_eq_0.
        -- rewrite H in Hinv. by apply (Qcle_not_lt 0 0) in Hinv.
      * apply (f_equal this) in H. vm_compute in H. discriminate H.
    + intros ->. unfold Qcdiv. ring.
Qed.

(** A priced row of a frame with non-negative prices costs more than
    nothing. *)
Lemma priced_row_positive (df : list GroupedRow) (g : nat) (r : GroupedRow) :
  prices_nonneg df → r ∈ group_rows df g →
  num_eq (price_per_100g r) (Some 0%Qc) = false →
  ∃ p, price_per_100g r = Some p ∧ (0 < p)%Qc.
Proof.
  intros Hnn [Hr _]%elem_of_filter_bool Hnz.
  destruct (Hnn r Hr) as (p & Hp & Hp0). exists p. split; [done|].
  rewrite Hp in Hnz. simpl in Hnz. apply bool_decide_eq_false in Hnz.
  apply Qcle_lt_or_eq in Hp0 as [?| <-]; done.
Qed.

(** X15.  For every deal [identify_best_deals] emits, the least price of the
    group is a number above zero, so the guard [if min_price > 0 else 0]
    of the percentage never takes its second branch: the percentage is the
    price difference over the least price, times 100.  On a frame with
    non-negative prices it is a number that is not negative, and is zero
    exactly for the best deals. *)
Theorem percentage_guard_is_dead (df : list GroupedRow) (d : Deal) :
  d ∈ identify_best_deals df →
  ∃ g m, deal_product_group d = Some g
    ∧ min_price (group_rows df g) = Some m ∧ (0 < m)%Qc
    ∧ price_difference d = num_sub (deal_price_per_100g d) (Some m)
    ∧ price_difference_percent d = num_pct (price_difference d) (Some m)
    ∧ (prices_nonneg df →
       ∃ q, price_difference_percent d = Some q ∧ (0 ≤ q)%Qc
            ∧ (q = 0%Qc ↔ is_best_deal d = true)).
Proof.
  intros (g & m & r & Hmin & Hm & Hr & Hnz & -> & _ & Hle & _)%deal_origin.
  exists g, m. split; [done|]. split; [done|]. split; [done|].
  split; [done|]. cbn [price_difference_percent price_difference make_deal
                      is_best_deal deal_price_per_100g].
  assert (num_pos (Some m) = true) as ->
    by by apply bool_decide_eq_true.
  split; [done|]. intros Hnn.
  destruct (priced_row_positive df g r Hnn Hr Hnz) as (p & Hp & Hp0).
  rewrite Hp. simpl.
  destruct (percent_nonneg p m Hm (Hle r p Hr Hp Hp0)) as [Hq Hq0].
  eexists. split; [done|]. split; [done|].
  rewrite Hq0. by rewrite bool_decide_eq_true.
Qed.

Lemma percentage_guard_is_dead_witness :
  deal_b ∈ identify_best_deals df_matched
  ∧ ∃ g m, deal_product_group deal_b = Some g
      ∧ min_price (group_rows df_matched g) = Some m ∧ (0 < m)%Qc
      ∧ price_difference deal_b
        = num_sub (deal_price_per_100g deal_b) (Some m)
      ∧ price_difference_percent deal_b
        = num_pct (price_difference deal_b) (Some m)
      ∧ (prices_nonneg df_matched →
         ∃ q, price_difference_percent deal_b = Some q ∧ (0 ≤ q)%Qc
              ∧ (q = 0%Qc ↔ is_best_deal deal_b = true)).
Proof.
  assert (deal_b ∈ identify_best_deals df_matched) as H
    by (vm_compute; right; left).
  split; [exact H|].
  exact (percentage_guard_is_dead df_matched deal_b H).
Defined.

(** ** Best deals and rows of the table *)

(** Every group of the deals has a deal that is the best one. *)
Lemma group_has_best_deal (df : list GroupedRow) (d : Deal) :
  d ∈ identify_best_deals df →
  ∃ b, b ∈ identify_best_deals df
       ∧ deal_product_group b = deal_product_group d
       ∧ is_best_deal b = true.
Proof.
  intros (g & m & r & Hmin & Hm & _ & _ & -> & (r0 & Hr0 & Hp0) & _ & Hall)
    %deal_origin.
  exists (make_deal (Some g) (Some m) r0). split; [|split; [done|]].
  - apply Hall. apply elem_of_filter_bool. split; [done|].
    rewrite Hp0. simpl. apply negb_true_iff, bool_decide_eq_false.
    intros ->. by apply (Qcle_not_lt 0 0) in Hm.
  - simpl. rewrite Hp0. simpl. by apply bool_decide_eq_true.
Qed.

Lemma groups_at_most_best_deals (df : list GroupedRow) :
  (nunique (map deal_product_group (identify_best_deals df))
   ≤ best_deals_found (identify_best_deals df))%nat.
Proof.
  unfold nunique, best_deals_found.
  rewrite <- (length_map deal_product_group (List.filter _ _)).
  apply submseteq_length, NoDup_submseteq; [apply NoDup_unique|].
  intros gid (d & -> & Hd)%elem_of_unique%list_elem_of_fmap.
  destruct (group_has_best_deal df d Hd) as (b & Hb & <- & Hbest).
  apply list_elem_of_fmap. exists b. split; [done|].
  by apply elem_of_filter_bool.
Qed.

Section Run.
Variable standardize_brand : option string → string.
Variable create_product_key : Row → string → string.
Variable scorer : string → string → nat.

(** The deals of a run are on the platforms of the file. *)
Lemma deals_platform (csv : list Row) (d : Deal) :
  d ∈ deals standardize_brand create_product_key scorer csv →
  is_Some (deal_product_group d)
  ∧ ∃ r0, r0 ∈ csv ∧ deal_platform d = platform r0.
Proof.
  intros (g & m & r & _ & _ & Hr & _ & -> & _)%deal_origin.
  split; [by eexists|].
  apply elem_of_filter_bool in Hr as [Hr _].
  apply elem_of_matched in Hr as (_ & r0 & Hr0 & E).
  exists r0. split; [done|]. simpl. by rewrite E.
Qed.
End Run.

(** X16.  [run_analysis.py] on a file whose platforms are among blinkit,
    zepto and bbnow.  When no product group yields a deal, both
    [generate_insights] and [create_comparison_table] raise.  Otherwise
    both return; the table has one row per group of deals ("Total products
    compared"), and the number of best deals ("Best deals found") is at
    least the number of rows, every group having a best deal and more than
    one when prices tie. *)
Theorem analysis_fails_only_without_deals
    (standardize_brand : option string → string)
    (create_product_key : Row → string → string)
    (scorer : string → string → nat) (csv : list Row) :
  (∀ r, r ∈ csv → platform r ∈ platforms) →
  let deals_df := deals standardize_brand create_product_key scorer csv in
  let table :=
    comparison_table standardize_brand create_product_key scorer csv in
  (deals_df = [] → generate_insights deals_df = None ∧ table = None)
  ∧ (deals_df ≠ [] →
     is_Some (generate_insights deals_df)
     ∧ ∃ rows, table = Some rows
         ∧ length rows = nunique (map deal_product_group deals_df)
         ∧ (length rows ≤ best_deals_found deals_df)%nat).
Proof.
  intros Hplat deals_df table. split.
  - subst table. unfold comparison_table. fold deals_df. by intros ->.
  - intros Hne. split.
    { unfold generate_insights. destruct deals_df; [done | by eexists]. }
    destruct (table_is_Some deals_df Hne) as [rows Hrows].
    { intros d Hd.
      destruct (deals_platform _ _ _ csv d Hd) as (Hg & r0 & Hr0 & ->).
      split; [done | by apply Hplat]. }
    exists rows. split; [exact Hrows|].
    assert (length rows = nunique (map deal_product_group deals_df)) as Hlen.
    { symmetry. unfold nunique.
      by apply (Forall2_length _ _ _ (table_rows _ _ Hrows)). }
    split; [done|]. rewrite Hlen. apply groups_at_most_best_deals.
Qed.

(** ** [generate_insights] *)

Lemma series_max_spec (l : list num) :
  l ≠ [] → (∀ x, x ∈ l → is_Some x) →
  ∃ m, series_max l = Some m ∧ Some m ∈ l
       ∧ ∀ v, Some v ∈ l → (v ≤ m)%Qc.
Proof.
  induction l as [|x l IH]; [done|]. intros _ Hall.
  destruct (Hall x) as [v ->]; [by left|].
  destruct l as [|y l].
  - exists v. simpl. split; [done|]. split; [by left|].
    intros w [[= ->] | ?%elem_of_nil]%elem_of_cons; [|done]. apply Qcle_refl.
  - destruct IH as (m & Hm & Hin & Hle); [done| |].
    { intros z Hz. apply Hall. by right. }
    change (series_max (Some v :: y :: l)) with
      (match series_max (y :: l) with
       | Some m => Some (if bool_decide (m ≤ v)%Qc then v else m)
       | None => Some v
       end).
    rewrite Hm. case_bool_decide as Hmv.
    + exists v. split; [done|]. split; [by left|].
      intros w [[= ->] | Hw]%elem_of_cons; [apply Qcle_refl|].
      eapply Qcle_trans; [by apply Hle | exact Hmv].
    + exists m. split; [done|]. split; [by right|].
      intros w [[= ->] | Hw]%elem_of_cons; [|by apply Hle].
      apply Qclt_le_weak. by apply Qcnot_le_lt.
Qed.

Lemma Q2Qc_pos (n : Z) (d : positive) : (0 < n)%Z → (0 < Q2Qc (n # d))%Qc.
Proof.
  intros Hn. change (0 < Qred (n # d))%Q. rewrite Qred_correct.
  unfold Qlt. simpl. lia.
Qed.

Lemma sum_nonneg (vs : list Qc) :
  (∀ v, v ∈ vs → (0 ≤ v)%Qc) → (0 ≤ foldr Qcplus 0%Qc vs)%Qc.
Proof.
  induction vs as [|v vs IH]; intros H; simpl; [done|].
  apply Qcplus_nonneg_nonneg; [apply H; by left|].
  apply IH. intros w Hw. apply H. by right.
Qed.

(** The mean of a column of numbers that are not negative. *)
Lemma series_mean_nonneg (l : list num) :
  l ≠ [] → (∀ x, x ∈ l → ∃ v, x = Some v ∧ (0 ≤ v)%Qc) →
  ∃ a, series_mean l = Some a ∧ (0 ≤ a)%Qc.
Proof.
  intros Hne Hall. unfold series_mean.
  assert (∀ v, v ∈ omap id l → (0 ≤ v)%Qc) as Hvs.
  { intros v (x & Hx & Hv)%list_elem_of_omap.
    destruct (Hall x Hx) as (w & -> & Hw). simpl in Hv. by injection Hv as <-. }
  destruct (omap id l) as [|v vs] eqn:E.
  { destruct l as [|x l]; [done|].
    destruct (Hall x) as (w & -> & _); [by left|]. done. }
  eexists. split; [done|]. unfold Qcdiv.
  apply Qcmult_nonneg_nonneg; [by apply sum_nonneg|].
  apply Qclt_le_weak, Qcinv_pos, Q2Qc_pos. simpl. lia.
Qed.

Lemma deal_savings (df : list GroupedRow) (d : Deal) :
  prices_nonneg df → d ∈ identify_best_deals df →
  ∃ s, savings_opportunity d = Some s ∧ (0 ≤ s)%Qc
       ∧ (s = 0%Qc ↔ is_best_deal d = true).
Proof.
  intros Hnn (g & m & r & _ & _ & Hr & Hnz & -> & _ & Hle & _)%deal_origin.
  destruct (priced_row_positive df g r Hnn Hr Hnz) as (p & Hp & Hp0).
  by apply (make_deal_savings _ m p r Hp), (Hle r p Hr Hp).
Qed.

(** X17.  [generate_insights] on the deals of a frame with non-negative
    prices.  The maximum savings opportunity is a number that is not
    negative; some deal offers exactly that much and none offers more; it
    is zero exactly when every deal is a best deal.  The average price
    difference is a number that is not negative. *)
Theorem insights_of_the_deals (df : list GroupedRow) (ins : Insights) :
  prices_nonneg df →
  generate_insights (identify_best_deals df) = Some ins →
  (∃ s, max_savings_opportunity ins = Some s ∧ (0 ≤ s)%Qc
     ∧ (∃ d, d ∈ identify_best_deals df ∧ savings_opportunity d = Some s)
     ∧ (∀ d x, d ∈ identify_best_deals df →
               savings_opportunity d = Some x → (x ≤ s)%Qc)
     ∧ (s = 0%Qc
        ↔ ∀ d, d ∈ identify_best_deals df → is_best_deal d = true))
  ∧ (∃ a, avg_price_difference ins = Some a ∧ (0 ≤ a)%Qc).
Proof.
  intros Hnn. unfold generate_insights.
  destruct (identify_best_deals df) as [|d0 rest] eqn:E; [done|].
  rewrite <- E. intros [= <-]. simpl.
  assert (identify_best_deals df ≠ []) as Hne by by rewrite E.
  split.
  - destruct (series_max_spec
                (map savings_opportunity (identify_best_deals df)))
      as (s & Hs & Hin & Hmax).
    { by destruct (identify_best_deals df). }
    { intros x (d & -> & Hd)%list_elem_of_fmap.
      destruct (deal_savings df d Hnn Hd) as (y & -> & _). by eexists. }
    apply list_elem_of_fmap in Hin as (d & Hds & Hd).
    destruct (deal_savings df d Hnn Hd) as (y & Hy & Hy0 & Hybest).
    rewrite Hy in Hds. injection Hds as ->.
    assert (∀ e x, e ∈ identify_best_deals df →
                   savings_opportunity e = Some x → (x ≤ y)%Qc) as Hle.
    { intros e x He Hx. apply Hmax, list_elem_of_fmap. by exists e. }
    exists y. split; [done|]. split; [done|]. split; [by exists d|].
    split; [exact Hle|]. split.
    + intros -> e He.
      destruct (deal_savings df e Hnn He) as (x & Hx & Hx0 & Hxbest).
      apply Hxbest, Qcle_antisym; [by apply (Hle e) | done].
    + intros Hall. apply Hybest. by apply Hall.
  - apply series_mean_nonneg.
    { by destruct (identify_best_deals df). }
    intros x (d & -> & Hd)%list_elem_of_fmap.
    destruct (deal_origin df d Hd)
      as (g & m & r & Hmin & Hm & Hr & Hnz & -> & _ & Hle & _).
    destruct (priced_row_positive df g r Hnn Hr Hnz) as (p & Hp & Hp0).
    cbn [price_difference_percent make_deal].
    assert (num_pos (Some m) = true) as ->
      by by apply bool_decide_eq_true.
    rewrite Hp. simpl. eexists. split; [done|].
    by apply percent_nonneg, (Hle r p Hr Hp).
Qed.

End InsightFacts.
Module GroupFacts.
Import Text Frame Analyser Extractor Labels FrameFacts DealFacts LoadFacts
  MatchFacts LabelFacts Scenario.

(** ** The dictionary of groups *)

(** [extend_group] adds the identifier at the end when it is new and leaves
    the identifiers as they are when it is not. *)
Lemma extend_group_keys (gk : string) (ms : list string)
    (pg : list (string * list string)) :
  map fst (extend_group gk ms pg)
  = if bool_decide (gk ∈ map fst pg) then map fst pg
    else (map fst pg ++ [gk])%list.
Proof.
  induction pg as [|[k v] pg IH]; cbn [extend_group map fst].
  - case_bool_decide as Hin; [by apply elem_of_nil in Hin | done].
  - destruct (String.eqb_spec k gk) as [->|Hne]; cbn [map fst].
    + clear IH. case_bool_decide as Hin; [done|]. destruct Hin. by left.
    + rewrite IH. clear IH.
      case_bool_decide as Hin; case_bool_decide as Hin'.
      * done.
      * destruct Hin'. by right.
      * by apply elem_of_cons in Hin' as [-> | ?].
      * done.
Qed.

Lemma add_matches_keys (scorer : string → string → nat) (threshold : nat)
    (keys : list string) (pg : list (string * list string)) (K : string) :
  NoDup (map fst pg) →
  NoDup (map fst (add_matches scorer threshold keys pg K))
  ∧ (length (add_matches scorer threshold keys pg K) ≤ S (length pg))%nat.
Proof.
  intros Hnd. unfold add_matches.
  destruct (min_str _) as [gk|]; [|split; [done | lia]].
  pose proof (extend_group_keys
                gk (high_matches scorer threshold keys K) pg) as Hkeys.
  split.
  - rewrite Hkeys. case_bool_decide as Hin; [done|].
    apply NoDup_app. split; [done|]. split; [|apply NoDup_singleton].
    by intros x Hx ->%list_elem_of_singleton.
  - rewrite <- (length_map fst), Hkeys, <- (length_map fst pg).
    case_bool_decide; [lia|]. rewrite length_app. simpl. lia.
Qed.

Lemma build_groups_keys (scorer : string → string → nat) (threshold : nat)
    (keys : list string) :
  NoDup (map fst (build_groups scorer threshold keys))
  ∧ (length (build_groups scorer threshold keys) ≤ length keys)%nat.
Proof.
  unfold build_groups.
  assert (∀ l pg, NoDup (map fst pg) →
            NoDup (map fst (foldl (add_matches scorer threshold keys) pg l))
            ∧ (length (foldl (add_matches scorer threshold keys) pg l)
               ≤ length pg + length l)%nat) as H.
  { induction l as [|K l IH]; intros pg Hnd; simpl; [split; [done | lia]|].
    destruct (add_matches_keys scorer threshold keys pg K Hnd) as [Hnd' Hlen].
    destruct (IH _ Hnd') as [Hnd'' Hlen'']. split; [done | lia]. }
  destruct (H keys [] (NoDup_nil_2)) as [Hnd Hlen]. split; [done|].
  simpl in Hlen. lia.
Qed.

(** X18.  The groups [fuzzy_match_products] creates ("Created N product
    groups") have pairwise distinct identifiers and are at most as many as
    there are distinct product keys.  The frame it returns is the frame it
    was given with one column added; every group id it writes is below
    the number of groups, and two rows with the same product key have the
    same entry in that column. *)
Theorem group_ids_in_range (scorer : string → string → nat)
    (threshold : nat) (df : list KeyedRow) :
  let keys := unique (map product_key df) in
  let pg := build_groups scorer threshold keys in
  let out := fuzzy_match_products scorer df threshold in
  NoDup (map fst pg)
  ∧ (length pg ≤ length keys)%nat
  ∧ map keyed out = df
  ∧ (∀ (r : GroupedRow) i, r ∈ out → product_group r = Some i →
       (i < length pg)%nat)
  ∧ (∀ r r' : GroupedRow, r ∈ out → r' ∈ out →
       product_key r = product_key r' → product_group r = product_group r').
Proof.
  intros keys pg out.
  destruct (build_groups_keys scorer threshold keys) as [Hnd Hlen].
  split; [done|]. split; [done|]. split; [|split].
  - subst out. unfold fuzzy_match_products. rewrite map_map. simpl.
    apply map_id.
  - intros r i [_ Hr]%elem_of_fuzzy_match Hi. fold keys pg in Hr.
    rewrite Hr in Hi.
    apply group_mapping_lookup in Hi as [(ks & Hks & _) _].
    apply lookup_lt_Some in Hks. by rewrite length_map in Hks.
  - intros r r' [_ Hr]%elem_of_fuzzy_match [_ Hr']%elem_of_fuzzy_match E.
    by rewrite Hr, Hr', E.
Qed.

Lemma group_ids_in_range_witness :
  let df := map row_with_key ["the health factory_bread brown";
                              "the health factory_bread multigrain";
                              "the health factory_bread brown multigrain"] in
  let r := {| keyed := row_with_key "the health factory_bread multigrain";
              product_group := Some 1%nat |} in
  r ∈ fuzzy_match_products Fuzz.token_sort_ratio df 80
  ∧ (1 < length (build_groups Fuzz.token_sort_ratio 80
                   (unique (map product_key df))))%nat.
Proof.
  intros df r.
  assert (r ∈ fuzzy_match_products Fuzz.token_sort_ratio df 80) as Hr
    by (vm_compute; right; left).
  split; [exact Hr|].
  exact (proj1 (proj2 (proj2 (proj2
           (group_ids_in_range Fuzz.token_sort_ratio 80 df))))
           r 1%nat Hr eq_refl).
Defined.

(** ** The labels in the pipeline *)

(** What [load_and_preprocess] writes in the two columns it adds. *)
Lemma load_labels (standardize_brand : option string → string)
    (create_product_key : Row → string → string) (csv : list Row)
    (r : KeyedRow) :
  r ∈ load_and_preprocess standardize_brand create_product_key csv →
  brand_standardized r = standardize_brand (brand r)
  ∧ product_key r = create_product_key r (brand_standardized r).
Proof.
  unfold load_and_preprocess. by intros (r1 & -> & _)%list_elem_of_fmap.
Qed.

(** X19.  In the pipeline with [_standardize_brand] and
    [_create_product_key], two rows whose names are the same up to letter
    case and whose brands get the same label have the same product key,
    and so the same product group whatever the scorer; weight, price and
    platform play no part.  Brands get the same label when they are the
    same up to letter case and blanks at the ends. *)
Theorem same_product_same_group (scorer : string → string → nat)
    (csv : list Row) (r r' : GroupedRow) :
  r ∈ matched standardize_brand create_product_key scorer csv →
  r' ∈ matched standardize_brand create_product_key scorer csv →
  lower <$> name r = lower <$> name r' →
  standardize_brand (brand r) = standardize_brand (brand r') →
  product_key r = product_key r' ∧ product_group r = product_group r'.
Proof.
  unfold matched.
  intros [Hr Hg]%elem_of_fuzzy_match [Hr' Hg']%elem_of_fuzzy_match Hn Hb.
  apply load_labels in Hr as [Hbr Hkr], Hr' as [Hbr' Hkr'].
  assert (product_key r = product_key r') as Hkey.
  { rewrite Hkr, Hkr', Hbr, Hbr', Hb. unfold create_product_key.
    do 3 f_equal.
    destruct (name r) as [n|], (name r') as [n'|]; simpl in *;
      congruence. }
  split; [done|]. by rewrite Hg, Hg', Hkey.
Qed.

End GroupFacts.

Module FrameBuildFacts.
Import Text Scraper Frame Analyser Extractor ExtractFacts FrameFacts
  LoadFacts.

Lemma total_products_length (all_data : list (string * list Scraped)) :
  length (platform_rows all_data) = total_products all_data.
Proof.
  unfold platform_rows, total_products.
  induction all_data as [|[p l] rest IH]; [done|].
  simpl. by rewrite length_app, length_map, IH.
Qed.

(** X20.  [convert_to_dataframe] on the structure [run_scrapers.py] saves:
    the frame has as many rows as [save_combined_data] counted
    ([total_products]), the blocks follow one another in the order
    blinkit, zepto, bbnow with every product of every block kept, and the
    column [platform] of a row is the name of its block, one of the three,
    whatever ['platform'] entry the product came with. *)
Theorem dataframe_keeps_every_product (blinkit zepto bbnow : list Scraped) :
  let all_data := all_platforms_data blinkit zepto bbnow in
  length (dataframe all_data) = total_products all_data
  ∧ map platform (dataframe all_data)
    = (replicate (length blinkit) "blinkit"
       ++ replicate (length zepto) "zepto"
       ++ replicate (length bbnow) "bbnow")%list
  ∧ map (λ r : Row, (name r, brand r, weight r, price r)) (dataframe all_data)
    = map (λ d, (Some (s_name d), Some (s_brand d),
                 Some (s_weight d), Some (s_price d)))
          (blinkit ++ zepto ++ bbnow)
  ∧ ∀ r : Row, r ∈ dataframe all_data → platform r ∈ platforms.
Proof.
  intros all_data.
  assert (∀ p (l : list Scraped),
            map platform (convert_to_dataframe (map (tag p) l))
            = replicate (length l) p) as Hblock.
  { intros p l. induction l as [|d l IH]; [done|]. simpl. by rewrite IH. }
  assert (map platform (dataframe all_data)
          = (replicate (length blinkit) "blinkit"
             ++ replicate (length zepto) "zepto"
             ++ replicate (length bbnow) "bbnow")%list) as Hplat.
  { unfold dataframe, all_data, all_platforms_data, platform_rows,
      convert_to_dataframe.
    cbn [flat_map fst snd]. rewrite app_nil_r, !map_app.
    by rewrite !Hblock. }
  split; [|split; [done|split]].
  - unfold dataframe, convert_to_dataframe. rewrite length_map.
    apply total_products_length.
  - unfold dataframe, all_data, all_platforms_data, platform_rows,
      convert_to_dataframe.
    cbn [flat_map fst snd]. rewrite app_nil_r, !map_app, !map_map.
    done.
  - intros r Hr.
    assert (platform r ∈ map platform (dataframe all_data)) as Hin.
    { apply list_elem_of_fmap. by exists r. }
    rewrite Hplat in Hin. unfold platforms.
    repeat (apply elem_of_app in Hin as [Hin | Hin]);
      apply elem_of_replicate_inv in Hin as ->;
      repeat first [ by left | right ].
Qed.

End FrameBuildFacts.
Module OrderFacts.
Import Text Scraper Frame Analyser Extractor ExtractFacts FrameFacts
  LoadFacts Scenario.

Lemma filter_sublist {A} (f : A → bool) (l : list A) :
  sublist (List.filter f l) l.
Proof.
  induction l as [|x l IH]; [done|].
  simpl. destruct (f x); [by apply sublist_skip | by apply sublist_cons].
Qed.

(** [str.replace] leaves a string in which the pattern does not occur as
    it is. *)
Lemma remove_all_absent (sub s : string) :
  contains sub s = false → remove_all_go sub 0 s = s.
Proof.
  induction s as [|c s IH]; [done|].
  rewrite ScraperFacts.contains_cons.
  intros [Hp Hs]%orb_false_iff. cbn [remove_all_go].
  rewrite Hp. by rewrite IH.
Qed.

(** X21.  [load_and_preprocess] only drops rows and adds columns: the rows
    it returns are, in the order of the file, rows of the file with the
    name cleaned, so there are at most as many.  The name of a row it
    returns has no blank at either end; a name in which the marketing
    suffix does not occur is trimmed and nothing else. *)
Theorem preprocess_keeps_the_order
    (standardize_brand : option string → string)
    (create_product_key : Row → string → string) (csv : list Row) :
  let out := load_and_preprocess standardize_brand create_product_key csv in
  sublist (map base out) (map (λ r, set_name (clean_name (name r)) r) csv)
  ∧ (length out ≤ length csv)%nat
  ∧ (∀ r : KeyedRow, r ∈ out → ∃ n, name r = Some n ∧ strip n = n)
  ∧ (∀ n, contains clean_label n = false →
          clean_name (Some n) = Some (strip n)).
Proof.
  intros out. subst out. unfold load_and_preprocess.
  rewrite map_map. simpl. rewrite map_id.
  split; [apply filter_sublist|]. split; [|split].
  - rewrite length_map.
    pose proof (sublist_length _ _
      (filter_sublist keep_row
         (map (λ r, set_name (clean_name (name r)) r) csv))) as H.
    by rewrite length_map in H.
  - intros r (r1 & -> & Hr1)%list_elem_of_fmap. simpl.
    apply elem_of_filter_bool in Hr1 as [Hr1 Hk].
    apply list_elem_of_fmap in Hr1 as (r0 & -> & _).
    apply keep_row_valid in Hk as [[n Hn] _]. simpl in *.
    exists n. split; [done|].
    destruct (name r0) as [n0|]; [|done].
    simpl in Hn. injection Hn as <-. apply strip_idem.
  - intros n Hn. unfold clean_name. simpl. by rewrite remove_all_absent.
Qed.

End OrderFacts.

Module CountFacts.
Import Text Frame Analyser Reports FrameFacts DealFacts TableFacts LoadFacts
  SlotFacts BuildFacts InsightFacts Scenario.

Lemma filter_length_le {A} (f g : A → bool) (l : list A) :
  (∀ x, f x = true → g x = true) →
  (length (List.filter f l) ≤ length (List.filter g l))%nat.
Proof.
  intros Hfg. induction l as [|x l IH]; [done|].
  simpl. destruct (f x) eqn:Hf.
  - rewrite (Hfg x Hf). simpl. lia.
  - destruct (g x); simpl; lia.
Qed.

Lemma filter_length {A} (f : A → bool) (l : list A) :
  (length (List.filter f l) ≤ length l)%nat.
Proof.
  induction l as [|x l IH]; [done|]. simpl. destruct (f x); simpl; lia.
Qed.

(** A group has at most as many deals as rows. *)
Lemma group_deals_length (df : list GroupedRow) (gid : option nat) :
  (length (group_deals df gid)
   ≤ length (List.filter (λ r, group_is gid (product_group r)) df))%nat.
Proof.
  destruct gid as [g|]; [|rewrite group_deals_None; simpl; lia].
  rewrite group_deals_Some. fold (group_rows df g).
  destruct (_ <? 2)%nat; [simpl; lia|].
  destruct (_ <? 2)%nat; [simpl; lia|].
  rewrite length_map. apply filter_length.
Qed.

(** The groups of distinct ids share no row. *)
Lemma groups_partition (df : list GroupedRow) (gids : list (option nat)) :
  NoDup gids →
  (foldr Nat.add 0%nat
     (map (λ gid,
             length (List.filter (λ r, group_is gid (product_group r)) df))
          gids)
   ≤ length df)%nat.
Proof.
  intros Hnd. induction df as [|r df IH]; simpl.
  - induction gids as [|gid gids IHg]; [done|].
    simpl. apply NoDup_cons in Hnd as [_ Hnd]. by apply IHg.
  - assert (foldr Nat.add 0%nat
              (map (λ gid,
                      length (if group_is gid (product_group r)
                              then r :: List.filter
                                          (λ r, group_is gid (product_group r))
                                          df
                              else List.filter
                                     (λ r, group_is gid (product_group r)) df))
                   gids)
            ≤ S (foldr Nat.add 0%nat
                   (map (λ gid,
                           length (List.filter
                                     (λ r, group_is gid (product_group r))
                                     df))
                        gids)))%nat as H; [|lia].
    clear IH. induction Hnd as [|gid gids Hnot Hnd IHg]; simpl; [lia|].
    destruct (group_is gid (product_group r)) eqn:E; simpl; [|lia].
    assert (∀ gid', gid' ∈ gids →
              group_is gid' (product_group r) = false) as Hrest.
    { intros gid' Hin. destruct (group_is gid' (product_group r)) eqn:E';
        [|done].
      destruct gid as [a|], gid' as [b|], (product_group r) as [c|];
        simpl in E, E'; try done.
      apply Nat.eqb_eq in E, E'. subst. done. }
    assert (map (λ gid0,
                   length (if group_is gid0 (product_group r)
                           then r :: List.filter
                                       (λ r0, group_is gid0 (product_group r0))
                                       df
                           else List.filter
                                  (λ r0, group_is gid0 (product_group r0))
                                  df))
                gids
            = map (λ gid0,
                     length (List.filter
                               (λ r0, group_is gid0 (product_group r0)) df))
                  gids) as ->; [|lia].
    apply map_ext_in. intros gid' Hin%list_elem_of_In.
    by rewrite (Hrest gid' Hin).
Qed.

Lemma flat_map_length_sum {A B} (f : A → list B) (l : list A) :
  length (flat_map f l) = foldr Nat.add 0%nat (map (λ x, length (f x)) l).
Proof.
  induction l as [|x l IH]; [done|]. simpl. by rewrite length_app, IH.
Qed.

Lemma sum_le {A} (f g : A → nat) (l : list A) :
  (∀ x, f x ≤ g x)%nat →
  (foldr Nat.add 0%nat (map f l) ≤ foldr Nat.add 0%nat (map g l))%nat.
Proof.
  intros H. induction l as [|x l IH]; [done|].
  simpl. specialize (H x). lia.
Qed.

(** X22.  [identify_best_deals] makes at most one deal of a row, so there are
    at most as many deals ("Analyzed N product comparisons") as rows; and
    no deal stands alone: the group of every deal has at least two deals,
    one of which is a best deal. *)
Theorem deals_are_compared (df : list GroupedRow) :
  (length (identify_best_deals df) ≤ length df)%nat
  ∧ ∀ d, d ∈ identify_best_deals df →
      (2 ≤ length (group_of (identify_best_deals df)
                            (deal_product_group d)))%nat
      ∧ ∃ b, b ∈ group_of (identify_best_deals df) (deal_product_group d)
             ∧ is_best_deal b = true.
Proof.
  split.
  - unfold identify_best_deals. rewrite flat_map_length_sum.
    etransitivity; [|apply (groups_partition df
                              (unique (map product_group df))),
                       NoDup_unique].
    apply sum_le. intros gid. apply group_deals_length.
  - intros d Hd. split.
    + pose proof Hd as (g & _ & Hdg)%elem_of_identify.
      destruct (group_deals_group _ _ _ Hdg) as (? & [= <-] & ->).
      rewrite group_of_deals. rewrite group_deals_Some in Hdg |- *.
      destruct (nunique _ <? 2)%nat; [by apply elem_of_nil in Hdg|].
      destruct (length _ <? 2)%nat eqn:Hlen; [by apply elem_of_nil in Hdg|].
      apply Nat.ltb_ge in Hlen. rewrite length_map.
      etransitivity; [exact Hlen|]. apply filter_length_le.
      intros r Hr. destruct (price_per_100g r) as [p|]; [|done].
      simpl in *. apply bool_decide_eq_true in Hr.
      apply negb_true_iff, bool_decide_eq_false. intros ->.
      by apply (Qcle_not_lt 0 0) in Hr.
    + destruct (group_has_best_deal df d Hd) as (b & Hb & Hg & Hbest).
      exists b. split; [|done]. apply elem_of_group_of. split; [done|].
      rewrite Hg.
      pose proof Hd as (g & _ & Hdg)%elem_of_identify.
      destruct (group_deals_group _ _ _ Hdg) as (? & _ & ->).
      simpl. apply Nat.eqb_refl.
Qed.

End CountFacts.

Module ContractFacts.
Import Text Scraper Frame Analyser Extractor ExtractFacts FrameFacts
  DealFacts LoadFacts FrameBuildFacts.



End ContractFacts.

Module SampleFacts.
Import Text Scraper Frame Fuzz Analyser Extractor Labels Reports FrameFacts
  DealFacts TableFacts LoadFacts MatchFacts ScenarioFacts ExtractFacts
  LabelFacts SlotFacts BuildFacts InsightFacts GroupFacts FrameBuildFacts
  OrderFacts CountFacts ContractFacts Scenario Samples.

Lemma loaf_scraped : loaf ∈ scrape_zepto page.
Proof. vm_compute. left. Qed.


Lemma nameless_products_are_dropped_witness :
  loaf ∈ scrape_zepto page
  ∧ ∃ e, e ∈ page ∧ is_Some (name_element e)
         ∧ extract_product_data "zepto" e = Some loaf.
Proof.
  split; [exact loaf_scraped|].
  exact (proj1 (nameless_products_are_dropped page) loaf loaf_scraped).
Defined.

Lemma loaf_row_in_frame :
  loaf_row ∈ dataframe (all_platforms_data [] (scrape_zepto page)
                                           (scrape_bbnow page)).
Proof. vm_compute. left. Qed.

Lemma dataframe_keeps_every_product_witness :
  loaf_row ∈ dataframe (all_platforms_data [] (scrape_zepto page)
                                           (scrape_bbnow page))
  ∧ platform loaf_row ∈ platforms.
Proof.
  split; [exact loaf_row_in_frame|].
  exact (proj2 (proj2 (proj2
           (dataframe_keeps_every_product [] (scrape_zepto page)
                                          (scrape_bbnow page))))
           loaf_row loaf_row_in_frame).
Defined.



Lemma deals_are_compared_witness :
  deal_b ∈ identify_best_deals df_matched
  ∧ (2 ≤ length (group_of (identify_best_deals df_matched)
                          (deal_product_group deal_b)))%nat
  ∧ ∃ b, b ∈ group_of (identify_best_deals df_matched)
                      (deal_product_group deal_b)
         ∧ is_best_deal b = true.
Proof.
  split; [exact deal_b_emitted|].
  exact (proj2 (deals_are_compared df_matched) deal_b deal_b_emitted).
Defined.

Lemma scenario_deals_priced : priced_deals deals_df.
Proof.
  intros d Hd. vm_compute in Hd.
  repeat (apply elem_of_cons in Hd as [-> | Hd]; [by eexists|]).
  by apply elem_of_nil in Hd.
Qed.

Lemma slot_shows_cheapest_listing_witness :
  priced_deals deals_df
  ∧ create_comparison_table deals_df = Some table
  ∧ Forall2 (λ gid row,
        (∀ p, p ∈ platforms →
           ∃ s, slots row !! p = Some s
                ∧ shows_cheapest (on_platform (group_of deals_df gid) p) s)
        ∧ (∀ p, p ∉ platforms → slots row !! p = None))
      (unique (map deal_product_group deals_df)) table.
Proof.
  split; [exact scenario_deals_priced|]. split; [exact table_computed|].
  exact (slot_shows_cheapest_listing deals_df table scenario_deals_priced
           table_computed).
Defined.

Lemma comparable_row_marks_cheapest_witness :
  priced_deals deals_df
  ∧ create_comparison_table deals_df = Some table
  ∧ Forall2 (λ gid row,
        is_comparable row = true →
        ∃ p s v, slots row !! p = Some s ∧ slot_is_best s = true
          ∧ slot_per_100g s = Some (Some v)
          ∧ (∀ d w, d ∈ group_of deals_df gid →
                    deal_price_per_100g d = Some w → (v ≤ w)%Qc)
          ∧ get_min_price row = Some (Some v))
      (unique (map deal_product_group deals_df)) table.
Proof.
  split; [exact scenario_deals_priced|]. split; [exact table_computed|].
  exact (comparable_row_marks_cheapest deals_df table scenario_deals_priced
           table_computed).
Defined.

Lemma table_builder_raises_iff_witness :
  create_comparison_table deals_df = Some table
  ∧ length table = nunique (map deal_product_group deals_df)
  ∧ Forall (λ row,
              (1 ≤ platforms_available row ≤ 3)%nat
              ∧ is_comparable row = (2 <=? platforms_available row)%nat)
           table.
Proof.
  split; [exact table_computed|].
  exact (proj2 (table_builder_raises_iff deals_df) table table_computed).
Defined.

Lemma scenario_prices_positive (r : GroupedRow) :
  r ∈ df_matched → num_pos (price_per_100g r) = true.
Proof.
  intros Hr. unfold df_matched in Hr.
  repeat (apply elem_of_cons in Hr as [-> | Hr]; [done|]).
  by apply elem_of_nil in Hr.
Qed.

Lemma rows_of_a_run_are_comparable_witness :
  (∀ r : GroupedRow, r ∈ df_matched → num_pos (price_per_100g r) = true)
  ∧ create_comparison_table (identify_best_deals df_matched) = Some table
  ∧ Forall (λ row, is_comparable row = true
                   ∧ (2 ≤ platforms_available row)%nat) table.
Proof.
  split; [exact scenario_prices_positive|]. split; [exact table_computed|].
  exact (rows_of_a_run_are_comparable df_matched table
           scenario_prices_positive table_computed).
Defined.

Lemma insights_computed :
  generate_insights (identify_best_deals df_matched) = Some insights.
Proof. vm_compute. reflexivity. Qed.

Lemma insights_of_the_deals_witness :
  prices_nonneg df_matched
  ∧ generate_insights (identify_best_deals df_matched) = Some insights
  ∧ (∃ s, max_savings_opportunity insights = Some s ∧ (0 ≤ s)%Qc
       ∧ (∃ d, d ∈ identify_best_deals df_matched
               ∧ savings_opportunity d = Some s)
       ∧ (∀ d x, d ∈ identify_best_deals df_matched →
                 savings_opportunity d = Some x → (x ≤ s)%Qc)
       ∧ (s = 0%Qc
          ↔ ∀ d, d ∈ identify_best_deals df_matched →
                 is_best_deal d = true))
  ∧ (∃ a, avg_price_difference insights = Some a ∧ (0 ≤ a)%Qc).
Proof.
  split; [exact scenario_prices_nonneg|]. split; [exact insights_computed|].
  exact (insights_of_the_deals df_matched insights scenario_prices_nonneg
           insights_computed).
Defined.

Lemma scenario_platforms (r : Row) : r ∈ csv → platform r ∈ platforms.
Proof.
  intros Hr. vm_compute in Hr.
  repeat (apply elem_of_cons in Hr as [-> | Hr];
          [vm_compute; repeat first [ by left | right ]|]).
  by apply elem_of_nil in Hr.
Qed.

Lemma scenario_has_deals :
  deals standardize_brand create_product_key token_sort_ratio csv ≠ [].
Proof. vm_compute. discriminate. Qed.

Lemma analysis_fails_only_without_deals_witness :
  let deals_df :=
    deals standardize_brand create_product_key token_sort_ratio csv in
  (∀ r, r ∈ csv → platform r ∈ platforms)
  ∧ deals_df ≠ []
  ∧ is_Some (generate_insights deals_df)
  ∧ ∃ rows,
      comparison_table standardize_brand create_product_key
                       token_sort_ratio csv = Some rows
      ∧ length rows = nunique (map deal_product_group deals_df)
      ∧ (length rows ≤ best_deals_found deals_df)%nat.
Proof.
  intros deals_df.
  split; [exact scenario_platforms|]. split; [exact scenario_has_deals|].
  exact (proj2 (analysis_fails_only_without_deals standardize_brand
                  create_product_key token_sort_ratio csv
                  scenario_platforms)
           scenario_has_deals).
Defined.

Lemma listing_loaded :
  keyed matched_a
  ∈ load_and_preprocess standardize_brand create_product_key file.
Proof. vm_compute. left. Qed.

Lemma preprocess_keeps_the_order_witness :
  keyed matched_a
  ∈ load_and_preprocess standardize_brand create_product_key file
  ∧ ∃ n, name (keyed matched_a) = Some n ∧ strip n = n.
Proof.
  split; [exact listing_loaded|].
  exact (proj1 (proj2 (proj2
           (preprocess_keeps_the_order standardize_brand create_product_key
              file)))
           (keyed matched_a) listing_loaded).
Defined.

Lemma listings_matched :
  matched_a ∈ matched standardize_brand create_product_key
                      token_sort_ratio file
  ∧ matched_b ∈ matched standardize_brand create_product_key
                        token_sort_ratio file.
Proof. split; vm_compute; [left | right; left]. Qed.

Lemma same_product_same_group_witness :
  matched_a ∈ matched standardize_brand create_product_key
                      token_sort_ratio file
  ∧ matched_b ∈ matched standardize_brand create_product_key
                        token_sort_ratio file
  ∧ product_key matched_a = product_key matched_b
  ∧ product_group matched_a = product_group matched_b.
Proof.
  split; [exact (proj1 listings_matched)|].
  split; [exact (proj2 listings_matched)|].
  exact (same_product_same_group token_sort_ratio file matched_a matched_b
           (proj1 listings_matched) (proj2 listings_matched)
           eq_refl eq_refl).
Defined.

End SampleFacts.
